(** * CarbonLens: the cleaning pipeline and chart panels of [app.py]

    A shallow embedding of the dashboard script.  The pandas frames are
    lists of records, a numeric cell is an exact rational (or missing),
    the derived chart columns live in the rationals extended with the two
    infinities and NaN, and the render pass is a small state monad over a
    store of frames and a log of the calls made to the page. *)

From Stdlib Require Import List ZArith QArith Qminmax Bool String Ascii Lia Lqa.
From Stdlib Require Import Sorting.Sorted Sorting.Permutation.
Import ListNotations.

Set Implicit Arguments.
Local Open Scope Q_scope.

(* ------------------------------------------------------------------ *)
(** ** Cells and series *)

(** A numeric cell after [pd.to_numeric]: [None] is NaN (missing).
    Finite floats are read as exact rationals. *)
Abbreviation cell := (option Q) (only parsing).

Definition is_known (c : cell) : bool :=
  match c with Some _ => true | None => false end.

Module Series.

(** First known entry of [s], with its position counted from [i]. *)
Fixpoint first_valid (i : nat) (s : list cell) : option (nat * Q) :=
  match s with
  | [] => None
  | Some v :: _ => Some (i, v)
  | None :: s' => first_valid (S i) s'
  end.

Definition pos (i : nat) : Q := inject_Z (Z.of_nat i).

(** [np.interp] between the neighbours [(a, va)] and [(b, vb)],
    evaluated at position [i]. *)
Definition lerp (a : nat) (va : Q) (b : nat) (vb : Q) (i : nat) : Q :=
  (vb - va) / (pos b - pos a) * (pos i - pos a) + va.

(** [s.interpolate()]: method linear, so the index is ignored and the
    entries are equally spaced; limit_direction forward, so a leading
    gap stays missing and a trailing gap takes the last known value.
    [last] is the nearest known entry to the left, [i] the position of
    the head of [s]. *)
Fixpoint interpolate_from (last : option (nat * Q)) (i : nat)
         (s : list cell) : list cell :=
  match s with
  | [] => []
  | Some v :: s' => Some v :: interpolate_from (Some (i, v)) (S i) s'
  | None :: s' =>
      match last with
      | None => None
      | Some (a, va) =>
          match first_valid (S i) s' with
          | Some (b, vb) => Some (lerp a va b vb i)
          | None => Some va
          end
      end :: interpolate_from last (S i) s'
  end.

Definition interpolate (s : list cell) : list cell :=
  interpolate_from None 0 s.

(** [s.ffill()]: carry the last known value forward. *)
Fixpoint ffill_from (last : cell) (s : list cell) : list cell :=
  match s with
  | [] => []
  | Some v :: s' => Some v :: ffill_from (Some v) s'
  | None :: s' => last :: ffill_from last s'
  end.

Definition ffill (s : list cell) : list cell := ffill_from None s.

(** [s.bfill()]: carry the next known value backward. *)
Fixpoint bfill (s : list cell) : list cell :=
  match s with
  | [] => []
  | Some v :: s' => Some v :: bfill s'
  | None :: s' => let r := bfill s' in hd None r :: r
  end.

(** The lambda handed to [transform]. *)
Definition fill (s : list cell) : list cell :=
  bfill (ffill (interpolate s)).

End Series.

(* ------------------------------------------------------------------ *)
(** ** The table *)

(** The nine numeric measure columns. *)
Inductive measure :=
| co2 | co2_per_capita | gdp | population
| coal_co2 | oil_co2 | gas_co2 | flaring_co2 | cement_co2.

Definition measures : list measure :=
  [co2; co2_per_capita; gdp; population;
   coal_co2; oil_co2; gas_co2; flaring_co2; cement_co2].

(** A field of a measure column as [read_csv] hands it over: a number,
    text that is not a number, or nothing. *)
Inductive raw :=
| RNum (q : Q)
| RText (s : string)
| RNA.

(** One observation.  [idx] is the index label the row got when the
    file was read; [iso_code] and [country] may be empty fields (NaN);
    a character of a string is one [ascii]. *)
Record row (V : Type) := Row {
  idx : nat;
  iso_code : option string;
  country : option string;
  year : Z;
  val : measure -> V
}.

Arguments Row {V}.
Arguments idx {V}.
Arguments iso_code {V}.
Arguments country {V}.
Arguments year {V}.
Arguments val {V}.

Definition set_vals {V W} (r : row V) (g : measure -> W) : row W :=
  Row (idx r) (iso_code r) (country r) (year r) g.

(** The part of a row that cleaning never rewrites. *)
Definition ident {V} (r : row V) : nat * option string * option string * Z :=
  (idx r, iso_code r, country r, year r).

(** Stable sort by insertion, the order [sort_values] and [nlargest]
    leave equal keys in. *)
Section Sort.
Variable A : Type.
Variable leb : A -> A -> bool.

Fixpoint insert (x : A) (l : list A) : list A :=
  match l with
  | [] => [x]
  | y :: l' => if leb x y then x :: l else y :: insert x l'
  end.

Fixpoint isort (l : list A) : list A :=
  match l with
  | [] => []
  | x :: l' => insert x (isort l')
  end.
End Sort.

Module Clean.

(** [df['iso_code'].str.len() == 3]; the length of NaN is NaN. *)
Definition iso_len3 {V} (r : row V) : bool :=
  match iso_code r with
  | Some s => Nat.eqb (String.length s) 3
  | None => false
  end.

(** [pd.to_numeric(.., errors='coerce')] on one field. *)
Definition to_numeric (x : raw) : cell :=
  match x with
  | RNum q => Some q
  | RText _ => None
  | RNA => None
  end.

Definition coerce (r : row raw) : row cell :=
  set_vals r (fun m => to_numeric (val r m)).

(** Order of [sort_values(['country','year'])]: NaN countries last. *)
Definition key_leb {V} (r1 r2 : row V) : bool :=
  match country r1, country r2 with
  | Some a, Some b =>
      match String.compare a b with
      | Lt => true
      | Eq => (year r1 <=? year r2)%Z
      | Gt => false
      end
  | Some _, None => true
  | None, Some _ => false
  | None, None => (year r1 <=? year r2)%Z
  end.

Definition sort_values {V} (t : list (row V)) : list (row V) :=
  isort key_leb t.

(** Rows of the group of country [c]; a NaN country is in no group. *)
Definition in_group {V} (c : string) (r : row V) : bool :=
  match country r with
  | Some c' => String.eqb c c'
  | None => false
  end.

Definition group {V} (c : string) (t : list (row V)) : list (row V) :=
  filter (in_group c) t.

(** One column of one country's rows, in table order. *)
Definition series (c : string) (m : measure) (t : list (row cell))
  : list cell :=
  map (fun r => val r m) (group c t).

(** [groupby('country')[cols].transform(f)] written back into the
    columns: every row takes, column by column, the entry of
    [f (series ..)] at its rank inside its group; a row in no group
    gets NaN.  [seen] holds the rows already passed. *)
Fixpoint transform_from (f : list cell -> list cell)
         (whole seen rest : list (row cell)) : list (row cell) :=
  match rest with
  | [] => []
  | r :: rest' =>
      set_vals r (fun m =>
        match country r with
        | None => None
        | Some c => nth (List.length (group c seen)) (f (series c m whole)) None
        end) :: transform_from f whole (r :: seen) rest'
  end.

Definition transform (f : list cell -> list cell) (t : list (row cell))
  : list (row cell) :=
  transform_from f t [] t.

(** The table as it stands before line 15: filtered, coerced, sorted. *)
Definition prepare (csv : list (row raw)) : list (row cell) :=
  sort_values (map coerce (filter iso_len3 csv)).

(** The table [load_data] returns when it returns.  On which files the
    call raises instead is [load_error], further down; the script run
    from its first line, [dashboard], consults it first. *)
Definition load_data (csv : list (row raw)) : list (row cell) :=
  transform Series.fill (prepare csv).

End Clean.

(* ------------------------------------------------------------------ *)
(** ** Derived columns *)

(** Values of the columns the panels compute: float division by zero
    raises nothing and yields an infinity or NaN, so the derived columns
    live in the rationals extended with these three. *)
Inductive fval :=
| Fin (q : Q)
| PInf
| NInf
| NaN.

Module F.

Definition of_cell (c : cell) : fval :=
  match c with
  | Some q => Fin q
  | None => NaN
  end.

(** Division that refuses a zero divisor. *)
Definition checked_div (a b : Q) : option Q :=
  if Qeq_bool b 0 then None else Some (a / b).

Definition div (x y : fval) : fval :=
  match x, y with
  | NaN, _ => NaN
  | _, NaN => NaN
  | Fin a, Fin b =>
      match checked_div a b with
      | Some q => Fin q
      | None =>
          match a ?= 0 with
          | Eq => NaN
          | Gt => PInf
          | Lt => NInf
          end
      end
  | Fin _, PInf => Fin 0
  | Fin _, NInf => Fin 0
  | PInf, Fin b => match b ?= 0 with Lt => NInf | _ => PInf end
  | NInf, Fin b => match b ?= 0 with Lt => PInf | _ => NInf end
  | PInf, PInf => NaN
  | PInf, NInf => NaN
  | NInf, PInf => NaN
  | NInf, NInf => NaN
  end.

Definition mul (x y : fval) : fval :=
  match x, y with
  | NaN, _ => NaN
  | _, NaN => NaN
  | Fin a, Fin b => Fin (a * b)
  | Fin a, PInf => match a ?= 0 with Eq => NaN | Gt => PInf | Lt => NInf end
  | Fin a, NInf => match a ?= 0 with Eq => NaN | Gt => NInf | Lt => PInf end
  | PInf, Fin b => match b ?= 0 with Eq => NaN | Gt => PInf | Lt => NInf end
  | NInf, Fin b => match b ?= 0 with Eq => NaN | Gt => NInf | Lt => PInf end
  | PInf, PInf => PInf
  | NInf, NInf => PInf
  | PInf, NInf => NInf
  | NInf, PInf => NInf
  end.

Definition add (x y : fval) : fval :=
  match x, y with
  | NaN, _ => NaN
  | _, NaN => NaN
  | Fin a, Fin b => Fin (a + b)
  | PInf, NInf => NaN
  | NInf, PInf => NaN
  | PInf, _ => PInf
  | _, PInf => PInf
  | NInf, _ => NInf
  | _, NInf => NInf
  end.

(** Larger of two values, NaN skipped. *)
Definition max2 (x y : fval) : fval :=
  match x, y with
  | NaN, _ => y
  | _, NaN => x
  | PInf, _ => PInf
  | _, PInf => PInf
  | NInf, _ => y
  | _, NInf => x
  | Fin a, Fin b => if Qle_bool a b then Fin b else Fin a
  end.

(** [col.max()]: NaN entries are skipped; NaN when nothing is left. *)
Definition max (l : list fval) : fval := fold_left max2 l NaN.

(** A number of the closed interval [[lo, hi]]. *)
Definition within (lo hi : Q) (x : fval) : Prop :=
  match x with
  | Fin q => lo <= q /\ q <= hi
  | _ => False
  end.


Definition finite (x : fval) : Prop :=
  match x with
  | Fin _ => True
  | _ => False
  end.

End F.

(** [df.dropna(subset=cols)]. *)
Definition dropna (cols : list measure) (t : list (row cell))
  : list (row cell) :=
  filter (fun r => forallb (fun m => is_known (val r m)) cols) t.

(** [int(df['year'].max())]; nothing for an empty table. *)
Definition year_max (t : list (row cell)) : option Z :=
  match map year t with
  | [] => None
  | y :: ys => Some (fold_left Z.max ys y)
  end.

(* ------------------------------------------------------------------ *)
(** ** Bar-chart race *)

Record annual_row := Annual {
  a_year : Z;
  a_country : string;
  a_co2 : Q
}.

Module BarRace.

Definition key := (Z * string)%type.

Definition key_eq_dec (k1 k2 : key) : {k1 = k2} + {k1 <> k2}.
Proof. decide equality; [apply string_dec | apply Z.eq_dec]. Defined.

(** Group keys come out sorted by (year, country). *)
Definition key_leb (k1 k2 : key) : bool :=
  match (fst k1 ?= fst k2)%Z with
  | Lt => true
  | Eq => String.leb (snd k1) (snd k2)
  | Gt => false
  end.

(** Keys of the rows that take part: a NaN country is dropped. *)
Definition keys (t : list (row cell)) : list key :=
  flat_map (fun r => match country r with
                     | Some c => [(year r, c)]
                     | None => []
                     end) t.

Definition group_keys (t : list (row cell)) : list key :=
  isort key_leb (nodup key_eq_dec (keys t)).

(** [sum()] of a group: NaN counts for nothing, so a group of NaN
    sums to 0. *)
Definition sum_cells (l : list cell) : Q :=
  fold_left (fun acc c => match c with Some v => acc + v | None => acc end)
            l 0.

Definition in_key (k : key) (r : row cell) : bool :=
  ((year r =? fst k)%Z && Clean.in_group (snd k) r)%bool.

(** The row of one group: its keys and the sum of its [co2]. *)
Definition total_of (t : list (row cell)) (k : key) : annual_row :=
  Annual (fst k) (snd k)
         (sum_cells (map (fun r => val r co2) (filter (in_key k) t))).

(** [df.groupby(['year','country'], as_index=False)['co2'].sum()]. *)
Definition annual (t : list (row cell)) : list annual_row :=
  map (total_of t) (group_keys t).

(** [d.nlargest(n, 'co2')]: the first [n] in descending order of
    [co2], earlier rows first among equals. *)
Definition co2_geb (x y : annual_row) : bool :=
  Qle_bool (a_co2 y) (a_co2 x).

Definition nlargest (n : nat) (d : list annual_row) : list annual_row :=
  firstn n (isort co2_geb d).

Definition of_year (y : Z) (a : list annual_row) : list annual_row :=
  filter (fun r => (a_year r =? y)%Z) a.

Definition years (a : list annual_row) : list Z :=
  isort Z.leb (nodup Z.eq_dec (map a_year a)).

(** [annual.groupby('year', group_keys=False).apply(..nlargest..)]. *)
Definition top10_each (t : list (row cell)) : list annual_row :=
  let a := annual t in
  flat_map (fun y => nlargest 10 (of_year y a)) (years a).

(** The frame of one year of the animation. *)
Definition frame_of (y : Z) (t : list (row cell)) : list annual_row :=
  of_year y (top10_each t).

(** Upper end of [range_x]. *)
Definition range_hi (top : list annual_row) : fval :=
  F.mul (F.max (map (fun r => Fin (a_co2 r)) top)) (Fin (105 # 100)).

End BarRace.

(* ------------------------------------------------------------------ *)
(** ** Bubble map *)

Module BubbleMap.

Definition df_map (t : list (row cell)) : list (row cell) :=
  dropna [co2_per_capita; co2] t.

Definition co2_max (d : list (row cell)) : fval :=
  F.max (map (fun r => F.of_cell (val r co2)) d).

(** [(df_map['co2'] / df_map['co2'].max()) * 60 + 5]. *)
Definition bubble_size (d : list (row cell)) (r : row cell) : fval :=
  F.add (F.mul (F.div (F.of_cell (val r co2)) (co2_max d)) (Fin 60)) (Fin 5).

Definition bubble_sizes (d : list (row cell)) : list fval :=
  map (bubble_size d) d.

End BubbleMap.

(* ------------------------------------------------------------------ *)
(** ** Country radar *)

(** An index label of the country column: a name, or NaN. *)
Abbreviation label := (option string) (only parsing).

Definition label_eqb (a b : label) : bool :=
  match a, b with
  | Some x, Some y => String.eqb x y
  | None, None => true
  | _, _ => false
  end.

(** [col.unique()]: first occurrences, in order. *)
Fixpoint unique (l : list label) : list label :=
  match l with
  | [] => []
  | x :: l' => x :: filter (fun y => negb (label_eqb x y)) (unique l')
  end.

Module Radar.

Inductive metric :=
| m_population | m_gdp_per_capita | m_co2 | m_co2_per_capita.

Definition metrics : list metric :=
  [m_population; m_gdp_per_capita; m_co2; m_co2_per_capita].

(** [df[df['year']==latest].dropna(subset=[..])]. *)
Definition base (t : list (row cell)) (latest : Z) : list (row cell) :=
  dropna [co2; co2_per_capita; gdp; population]
         (filter (fun r => (year r =? latest)%Z) t).

(** [df_radar['gdp'] / df_radar['population']], row by row. *)
Definition gdp_per_capita (r : row cell) : fval :=
  F.div (F.of_cell (val r gdp)) (F.of_cell (val r population)).

(** A row of [df_radar]: the observation and its [gdp_per_capita]. *)
Definition radar_row := (row cell * fval)%type.

Definition df_radar (t : list (row cell)) (latest : Z) : list radar_row :=
  let b := base t latest in combine b (map gdp_per_capita b).

Definition label_of (x : radar_row) : label := country (fst x).

Definition metric_value (m : metric) (x : radar_row) : fval :=
  match m with
  | m_population => F.of_cell (val (fst x) population)
  | m_gdp_per_capita => snd x
  | m_co2 => F.of_cell (val (fst x) co2)
  | m_co2_per_capita => F.of_cell (val (fst x) co2_per_capita)
  end.

Definition options (d : list radar_row) : list label :=
  unique (map label_of d).

(** [df_radar[metrics].max()], one maximum per metric over all rows. *)
Definition norm (d : list radar_row) (m : metric) : fval :=
  F.max (map (metric_value m) d).

(** [.set_index('country').loc[choices]]: per label, in the order of
    the labels, every row that carries it; a label without a row is a
    KeyError. *)
Fixpoint loc (choices : list label) (d : list radar_row)
  : option (list radar_row) :=
  match choices with
  | [] => Some []
  | c :: cs =>
      match filter (fun x => label_eqb c (label_of x)) d with
      | [] => None
      | rs =>
          match loc cs d with
          | Some rest => Some (rs ++ rest)
          | None => None
          end
      end
  end.

Definition norm_row (d : list radar_row) (x : radar_row)
  : label * (metric -> fval) :=
  (label_of x, fun m => F.div (metric_value m x) (norm d m)).

Definition df_norm (choices : list label) (d : list radar_row)
  : option (list (label * (metric -> fval))) :=
  option_map (map (norm_row d)) (loc choices d).

(** [df_norm.reset_index().melt(id_vars='country', ..)]. *)
Definition melt (dn : list (label * (metric -> fval)))
  : list (label * metric * fval) :=
  flat_map (fun m => map (fun e => (fst e, m, snd e m)) dn) metrics.

End Radar.

(* ------------------------------------------------------------------ *)
(** ** Source sunburst *)

Record melt_row := Melt {
  m_country : label;
  m_source : string;
  m_emissions : cell
}.

Module Sunburst.

Definition sources : list measure :=
  [coal_co2; oil_co2; gas_co2; flaring_co2; cement_co2].

Definition column_name (m : measure) : string :=
  match m with
  | co2 => "co2"
  | co2_per_capita => "co2_per_capita"
  | gdp => "gdp"
  | population => "population"
  | coal_co2 => "coal_co2"
  | oil_co2 => "oil_co2"
  | gas_co2 => "gas_co2"
  | flaring_co2 => "flaring_co2"
  | cement_co2 => "cement_co2"
  end.

Definition df5 (t : list (row cell)) (latest : Z) : list (row cell) :=
  filter (fun r => (year r =? latest)%Z) t.

(** Descending order of [co2] with NaN last. *)
Definition co2_geb (x y : row cell) : bool :=
  match val x co2, val y co2 with
  | Some a, Some b => Qle_bool b a
  | Some _, None => true
  | None, Some _ => false
  | None, None => true
  end.

(** [df5.nlargest(5,'co2')['country']]. *)
Definition top5 (d : list (row cell)) : list label :=
  map country (firstn 5 (isort co2_geb d)).

(** [df5[df5['country'].isin(top5)].melt(id_vars=['country'], ..)]. *)
Definition melt (d : list (row cell)) : list melt_row :=
  let keep := filter (fun r => existsb (label_eqb (country r)) (top5 d)) d in
  flat_map (fun m => map (fun r => Melt (country r) (column_name m)
                                        (val r m)) keep) sources.

(** [str.replace(pat, rep)] with a literal pattern; [skip] characters
    of a match are still to be dropped. *)
Fixpoint replace_from (pat rep : string) (skip : nat) (s : string) : string :=
  match s with
  | EmptyString => EmptyString
  | String ch s' =>
      match skip with
      | S k => replace_from pat rep k s'
      | O =>
          if (String.prefix pat s && negb (String.eqb pat ""))%bool
          then rep ++ replace_from pat rep (String.length pat - 1) s'
          else String ch (replace_from pat rep 0 s')
      end
  end.

Definition replace (pat rep s : string) : string :=
  replace_from pat rep 0 s.

Definition is_lower (ch : ascii) : bool :=
  ((97 <=? nat_of_ascii ch) && (nat_of_ascii ch <=? 122))%nat%bool.

Definition is_upper (ch : ascii) : bool :=
  ((65 <=? nat_of_ascii ch) && (nat_of_ascii ch <=? 90))%nat%bool.

Definition upper (ch : ascii) : ascii :=
  if is_lower ch then ascii_of_nat (nat_of_ascii ch - 32) else ch.

Definition lower (ch : ascii) : ascii :=
  if is_upper ch then ascii_of_nat (nat_of_ascii ch + 32) else ch.

(** [str.title()]: a letter after a non-letter is upper-cased, any
    other letter lower-cased. *)
Fixpoint title_from (in_word : bool) (s : string) : string :=
  match s with
  | EmptyString => EmptyString
  | String ch s' =>
      String (if in_word then lower ch else upper ch)
             (title_from (is_lower ch || is_upper ch) s')
  end.

Definition title (s : string) : string := title_from false s.

(** The three string calls of lines 127 to 130. *)
Definition relabel (s : string) : string :=
  replace "Flaring" "Flaring" (title (replace "_co2" "" s)).

End Sunburst.

(* ------------------------------------------------------------------ *)
(** ** The render pass *)

(** Objects of the store: a frame of observations with the columns
    added to it, or a melted frame. *)
Inductive obj :=
| Frame (rows : list (row cell)) (cols : list (string * list fval))
| Melted (rows : list melt_row).

Inductive figure :=
| BarFig (data : list annual_row) (range_x_hi : fval) (latest : Z)
| ScatterGeoFig (rows : list (row cell)) (size : list fval) (latest : Z)
| LinePolarFig (radar_df : list (label * Radar.metric * fval)) (latest : Z)
| SunburstFig (data : list melt_row) (latest : Z).

(** Calls made to the page. *)
Inductive call :=
| Title (s : string)
| SidebarHeader (s : string)
| Subheader (s : string)
| PlotlyChart (f : figure)
| Info (s : string).

Inductive exn :=
| ValueError
| KeyError
| TypeError
| AttributeError
| StreamlitAPIException.

Record world := World {
  store : list obj;
  page : list call
}.

Definition loc := nat.

(** State with exceptions: a raise keeps the world it happened in. *)
Definition M (A : Type) : Type := world -> (exn + A) * world.

Definition ret {A} (a : A) : M A := fun w => (inr a, w).

Definition throw {A} (e : exn) : M A := fun w => (inl e, w).

Definition bind {A B} (m : M A) (k : A -> M B) : M B :=
  fun w =>
    match m w with
    | (inr a, w') => k a w'
    | (inl e, w') => (inl e, w')
    end.

Notation "x <- m ;; k" := (bind m (fun x => k))
  (at level 61, m at next level, right associativity).
Notation "m ;; k" := (bind m (fun _ => k))
  (at level 61, right associativity).

Definition emit (c : call) : M unit :=
  fun w => (inr tt, World (store w) (page w ++ [c])).

(** A new object; its location is the next free one. *)
Definition alloc (o : obj) : M loc :=
  fun w => (inr (List.length (store w)), World (store w ++ [o]) (page w)).

Fixpoint upd (l : loc) (o : obj) (s : list obj) : list obj :=
  match s, l with
  | [], _ => []
  | _ :: s', O => o :: s'
  | x :: s', S l' => x :: upd l' o s'
  end.

Definition frame_rows (l : loc) : M (list (row cell)) :=
  fun w =>
    match nth_error (store w) l with
    | Some (Frame rows _) => (inr rows, w)
    | _ => (inl TypeError, w)
    end.

Fixpoint lookup_col (name : string) (cols : list (string * list fval))
  : option (list fval) :=
  match cols with
  | [] => None
  | (n, v) :: cols' => if String.eqb name n then Some v else lookup_col name cols'
  end.

Definition frame_column (l : loc) (name : string) : M (list fval) :=
  fun w =>
    match nth_error (store w) l with
    | Some (Frame _ cols) =>
        match lookup_col name cols with
        | Some v => (inr v, w)
        | None => (inl KeyError, w)
        end
    | _ => (inl TypeError, w)
    end.

(** [frame[name] = values], in place on the object at [l]. *)
Definition set_column (l : loc) (name : string) (values : list fval) : M unit :=
  fun w =>
    match nth_error (store w) l with
    | Some (Frame rows cols) =>
        (inr tt,
         World (upd l (Frame rows
                  ((name, values)
                     :: filter (fun c => negb (String.eqb name (fst c))) cols))
                  (store w))
               (page w))
    | _ => (inl TypeError, w)
    end.

Definition melted_rows (l : loc) : M (list melt_row) :=
  fun w =>
    match nth_error (store w) l with
    | Some (Melted rows) => (inr rows, w)
    | _ => (inl TypeError, w)
    end.

(** [melt['source'] = values], in place on the object at [l]. *)
Definition set_source (l : loc) (f : string -> string) : M unit :=
  fun w =>
    match nth_error (store w) l with
    | Some (Melted rows) =>
        (inr tt,
         World (upd l (Melted (map (fun r => Melt (m_country r)
                                                  (f (m_source r))
                                                  (m_emissions r)) rows))
                    (store w))
               (page w))
    | _ => (inl TypeError, w)
    end.

(** [st.multiselect(.., options=.., default=..)]: the widget raises when
    one of its default values is not among its options, on every run
    and whatever is selected; otherwise it hands back the viewer's
    selection (the default on the first run), which it only accepts
    from among its options. *)
Definition multiselect (options default selection : list label)
  : M (list label) :=
  if forallb (fun c => existsb (label_eqb c) options) default
  then if forallb (fun c => existsb (label_eqb c) options) selection
       then ret selection
       else throw StreamlitAPIException
  else throw StreamlitAPIException.

(** The options of the sidebar's multiselect. *)
Definition viz_options : list string :=
  ["Bar-Chart Race"; "Bubble Map"; "Country Radar"; "Source Sunburst"]%string.

Definition selected (name : string) (viz : list string) : bool :=
  existsb (String.eqb name) viz.

Definition bar_race_panel (df : loc) (latest : Z) : M unit :=
  emit (Subheader "🏁 Top-10 CO₂ Emitters Over Time") ;;
  d <- frame_rows df ;;
  let top10_each := BarRace.top10_each d in
  emit (PlotlyChart (BarFig top10_each (BarRace.range_hi top10_each) latest)).

(** A marker size [px.scatter_geo] takes: a number that is not
    negative.  NaN and negative sizes are refused. *)
Definition valid_size (x : fval) : bool :=
  match x with
  | Fin q => Qle_bool 0 q
  | PInf => true
  | NInf => false
  | NaN => false
  end.

(** [px.scatter_geo(df_map, .., size='bubble_size', ..)]: a ValueError
    when a size is not valid. *)
Definition scatter_geo (rows : list (row cell)) (size : list fval)
           (latest : Z) : M figure :=
  if forallb valid_size size
  then ret (ScatterGeoFig rows size latest)
  else throw ValueError.

Definition bubble_map_panel (df : loc) (latest : Z) : M unit :=
  emit (Subheader "💡 CO₂ per Capita Bubble Map") ;;
  d <- frame_rows df ;;
  df_map <- alloc (Frame (BubbleMap.df_map d) []) ;;
  m <- frame_rows df_map ;;
  set_column df_map "bubble_size" (BubbleMap.bubble_sizes m) ;;
  m <- frame_rows df_map ;;
  size <- frame_column df_map "bubble_size" ;;
  fig2 <- scatter_geo m size latest ;;
  emit (PlotlyChart fig2).

Definition radar_info : string :=
  "Select at least one country to display the radar chart.".

Definition radar_heading : string :=
  "📈 Multimetric Radar Chart (Latest Year)".

(** The default of the country picker, line 80. *)
Definition radar_default : list label :=
  [Some "United States"; Some "China"; Some "India"]%string.

Definition radar_panel (df : loc) (latest : Z) (selection : list label)
  : M unit :=
  emit (Subheader radar_heading) ;;
  d <- frame_rows df ;;
  df_radar <- alloc (Frame (Radar.base d latest) []) ;;
  r <- frame_rows df_radar ;;
  set_column df_radar "gdp_per_capita" (map Radar.gdp_per_capita r) ;;
  r <- frame_rows df_radar ;;
  g <- frame_column df_radar "gdp_per_capita" ;;
  let table := combine r g in
  choices <- multiselect (Radar.options table) radar_default selection ;;
  match choices with
  | _ :: _ =>
      match Radar.df_norm choices table with
      | Some df_norm =>
          emit (PlotlyChart (LinePolarFig (Radar.melt df_norm) latest))
      | None => throw KeyError
      end
  | [] => emit (Info radar_info)
  end.

Definition sunburst_panel (df : loc) (latest : Z) : M unit :=
  emit (Subheader "🌳 Emissions by Source (Top 5 Emitters)") ;;
  d <- frame_rows df ;;
  melt <- alloc (Melted (Sunburst.melt (Sunburst.df5 d latest))) ;;
  set_source melt Sunburst.relabel ;;
  m <- melted_rows melt ;;
  emit (PlotlyChart (SunburstFig m latest)).

Definition when (b : bool) (m : M unit) : M unit :=
  if b then m else ret tt.

(** Lines 36 to 137: the four panels, each behind its test on [viz]. *)
Definition render (df : loc) (latest : Z) (viz : list string)
           (selection : list label) : M unit :=
  when (selected "Bar-Chart Race" viz) (bar_race_panel df latest) ;;
  when (selected "Bubble Map" viz) (bubble_map_panel df latest) ;;
  when (selected "Country Radar" viz) (radar_panel df latest selection) ;;
  when (selected "Source Sunburst" viz) (sunburst_panel df latest).

(** The script from line 23 on, with the table the call of [load_data]
    returned, on the viewer's two selections. *)
Definition script (csv : list (row raw)) (viz : list string)
           (selection : list label) : M unit :=
  df <- alloc (Frame (Clean.load_data csv) []) ;;
  d <- frame_rows df ;;
  latest <- match year_max d with
            | Some y => ret y
            | None => throw ValueError
            end ;;
  emit (Title "🌍 Global CO₂ & Energy Interactive Dashboard") ;;
  emit (SidebarHeader "Configuration") ;;
  render df latest viz selection.

Definition start : world := World [] [].



(* ------------------------------------------------------------------ *)
(** ** Vocabulary of the statements *)

(** A cell that holds a number. *)
Definition known (c : cell) : Prop := c <> None.

(** The sort key of a row and the ascending order on keys: countries by
    character codes with NaN last, then years. *)
Definition key_of {V} (r : row V) : option string * Z := (country r, year r).

Definition key_le (k1 k2 : option string * Z) : Prop :=
  match fst k1, fst k2 with
  | Some a, Some b =>
      String.compare a b = Lt \/ (a = b /\ (snd k1 <= snd k2)%Z)
  | Some _, None => True
  | None, Some _ => False
  | None, None => (snd k1 <= snd k2)%Z
  end.

(** The years of one country's rows, in table order. *)
Definition years_of_group {V} (c : string) (t : list (row V)) : list Z :=
  map year (Clean.group c t).

(** Interpolation along the year axis, as a formula. *)
Definition year_lerp (y1 : Z) (v1 : Q) (y2 : Z) (v2 : Q) (y : Z) : Q :=
  v1 + inject_Z (y - y1) / inject_Z (y2 - y1) * (v2 - v1).

(** A computation that leaves the first [n] objects of the store as
    they are, whether it returns or raises, and whose result, when it
    returns one, satisfies [Q]. *)
Definition keeps {A} (n : nat) (m : M A) (Q : A -> Prop) : Prop :=
  forall w,
    (n <= List.length (store w))%nat ->
    firstn n (store (snd (m w))) = firstn n (store w) /\
    (n <= List.length (store (snd (m w))))%nat /\
    match fst (m w) with
    | inr a => Q a
    | inl _ => True
    end.

(** The calls a computation adds to the page of [w]. *)
Definition added {A} (m : M A) (w : world) : list call :=
  skipn (List.length (page w)) (page (snd (m w))).



(** A cell that, when it holds a number, holds one of [[lo, hi]]. *)
Definition in_range (lo hi : Q) (c : cell) : Prop :=
  match c with
  | Some v => lo <= v /\ v <= hi
  | None => True
  end.

(** The rows of a table with a given country and year. *)
Definition same_key {V} (k : option string * Z) (r : row V) : bool :=
  (label_eqb (fst k) (country r) && (snd k =? year r)%Z)%bool.



Definition bubble_map_heading : string := "💡 CO₂ per Capita Bubble Map".

Definition sunburst_heading : string :=
  "🌳 Emissions by Source (Top 5 Emitters)".


(** The row of the melted frame after line 127. *)
Definition relabel_row (r : melt_row) : melt_row :=
  Melt (m_country r) (Sunburst.relabel (m_source r)) (m_emissions r).

(** [a] has at least the [co2] of [b], a missing value counting as less
    than any number. *)
Definition co2_at_least (a b : row (option Q)) : Prop :=
  match val a co2, val b co2 with
  | Some x, Some y => y <= x
  | Some _, None => True
  | None, Some _ => False
  | None, None => True
  end.

(** The sum of the numbers among some cells, missing ones left out. *)
Fixpoint sum_known (l : list cell) : Q :=
  match l with
  | [] => 0
  | Some v :: l' => v + sum_known l'
  | None :: l' => sum_known l'
  end.

(** The rows of a table for a given year and country. *)
Definition rows_of (y : Z) (c : string) (t : list (row (option Q)))
  : list (row (option Q)) :=
  filter (fun r => ((year r =? y)%Z && label_eqb (Some c) (country r))%bool) t.



(** The sources of the sunburst with the labels lines 127 to 130 give
    them. *)
Definition source_labels : list (string * measure) :=
  [("Coal", coal_co2); ("Oil", oil_co2); ("Gas", gas_co2);
   ("Flaring", flaring_co2); ("Cement", cement_co2)]%string.

(* ------------------------------------------------------------------ *)
(** ** Sample files *)

Module Sample.
Local Open Scope string_scope.

(** A row of the file with its first four measures; the five source
    columns are left empty. *)
Definition obs (i : nat) (iso c : string) (y : Z)
           (v_co2 v_pc v_gdp v_pop : raw) : row raw :=
  Row i (Some iso) (Some c) y
      (fun m => match m with
                | co2 => v_co2
                | co2_per_capita => v_pc
                | gdp => v_gdp
                | population => v_pop
                | _ => RNA
                end).

(** The example of the specification: 2000, 2002, 2004. *)
Definition even_years : list (row raw) :=
  [obs 0 "AAA" "A" 2000 (RNum 10) RNA RNA RNA;
   obs 1 "AAA" "A" 2002 RNA RNA RNA RNA;
   obs 2 "AAA" "A" 2004 (RNum 30) RNA RNA RNA].

(** The same values with the gap one year after the first row. *)
Definition uneven_years : list (row raw) :=
  [obs 0 "AAA" "A" 2000 (RNum 10) RNA RNA RNA;
   obs 1 "AAA" "A" 2001 RNA RNA RNA RNA;
   obs 2 "AAA" "A" 2004 (RNum 30) RNA RNA RNA].

(** Gaps at both ends, an aggregate row and an unreadable field. *)
Definition ragged : list (row raw) :=
  [obs 0 "BBB" "B" 2001 (RNum 5) RNA RNA RNA;
   obs 1 "OWID_WRL" "World" 2000 (RNum 99) RNA RNA RNA;
   obs 2 "BBB" "B" 2002 (RText "n/a") RNA RNA RNA;
   obs 3 "BBB" "B" 2000 RNA RNA RNA RNA].

(** One country that emits nothing. *)
Definition no_emissions : list (row raw) :=
  [obs 0 "AAA" "A" 2000 (RNum 0) (RNum 0) (RNum 1) (RNum 1)].

(** Two countries with every radar measure present. *)
Definition two_countries : list (row raw) :=
  [obs 0 "AAA" "A" 2000 (RNum 4) (RNum 2) (RNum 6) (RNum 2);
   obs 1 "BBB" "B" 2000 (RNum 8) (RNum 1) (RNum 8) (RNum 8)].

(** A row whose population is zero. *)
Definition nobody_home : list (row raw) :=
  [obs 0 "AAA" "A" 2000 (RNum 4) (RNum 2) (RNum 6) (RNum 0)].

(** A gap of two rows, with uneven years. *)
Definition long_gap : list (row raw) :=
  [obs 0 "AAA" "A" 2000 (RNum 10) RNA RNA RNA;
   obs 1 "AAA" "A" 2001 RNA RNA RNA RNA;
   obs 2 "AAA" "A" 2005 RNA RNA RNA RNA;
   obs 3 "AAA" "A" 2010 (RNum 40) RNA RNA RNA].

(** A row without a country name, and a row repeated in the file. *)
Definition nameless : list (row raw) :=
  [Row 0 (Some "AAA") None 2000
       (fun m => match m with co2 => RNum 7 | _ => RNA end);
   obs 1 "BBB" "B" 2001 (RNum 2) (RNum 1) RNA RNA;
   obs 2 "AAA" "A" 2000 (RNum 3) RNA RNA RNA;
   obs 3 "BBB" "B" 2001 (RNum 4) (RNum 1) RNA RNA].


(** A country that reports no [co2] at all. *)
Definition silent : list (row raw) :=
  [obs 0 "AAA" "A" 2000 RNA RNA RNA RNA;
   obs 1 "AAA" "A" 2001 RNA RNA RNA RNA].



(** Eleven countries in one year, the first of them in two rows. *)
Definition eleven_countries : list (row raw) :=
  [obs 0 "C01" "C01" 2000 (RNum 1) RNA RNA RNA;
   obs 1 "C02" "C02" 2000 (RNum 2) RNA RNA RNA;
   obs 2 "C03" "C03" 2000 (RNum 3) RNA RNA RNA;
   obs 3 "C04" "C04" 2000 (RNum 4) RNA RNA RNA;
   obs 4 "C05" "C05" 2000 (RNum 5) RNA RNA RNA;
   obs 5 "C06" "C06" 2000 (RNum 6) RNA RNA RNA;
   obs 6 "C07" "C07" 2000 (RNum 7) RNA RNA RNA;
   obs 7 "C08" "C08" 2000 (RNum 8) RNA RNA RNA;
   obs 8 "C09" "C09" 2000 (RNum 9) RNA RNA RNA;
   obs 9 "C10" "C10" 2000 (RNum 10) RNA RNA RNA;
   obs 10 "C11" "C11" 2000 (RNum 11) RNA RNA RNA;
   obs 11 "C01" "C01" 2000 (RNum 20) RNA RNA RNA].

(** Seven countries in 2000, one of them without any [co2], and an
    earlier year of the first with the largest [co2] of the file. *)
Definition seven_emitters : list (row raw) :=
  [obs 0 "DD1" "D1" 1999 (RNum 100) RNA RNA RNA;
   obs 1 "DD1" "D1" 2000 (RNum 1) RNA RNA RNA;
   obs 2 "DD2" "D2" 2000 (RNum 2) RNA RNA RNA;
   obs 3 "DD3" "D3" 2000 RNA RNA RNA RNA;
   obs 4 "DD4" "D4" 2000 (RNum 4) RNA RNA RNA;
   obs 5 "DD5" "D5" 2000 (RNum 5) RNA RNA RNA;
   obs 6 "DD6" "D6" 2000 (RNum 6) RNA RNA RNA;
   obs 7 "DD7" "D7" 2000 (RNum 7) RNA RNA RNA].

(** Two years of one country with all five sources. *)
Definition with_sources : list (row raw) :=
  [Row 0 (Some "AAA") (Some "A") 1999
       (fun m => match m with co2 => RNum 50 | _ => RNum 7 end);
   Row 1 (Some "AAA") (Some "A") 2000
       (fun m => match m with
                 | co2 => RNum 15
                 | coal_co2 => RNum 1
                 | oil_co2 => RNum 2
                 | gas_co2 => RNum 3
                 | flaring_co2 => RNum 4
                 | cement_co2 => RNum 5
                 | _ => RNA
                 end)].

Definition all_panels : list string :=
  ["Bar-Chart Race"; "Bubble Map"; "Country Radar"; "Source Sunburst"].

End Sample.

(* ================================================================== *)
(** * Properties *)

Unset Implicit Arguments.

(** ** Filling one series *)

Module SeriesFacts.
Import Series.

Lemma interpolate_from_length last i s :
  List.length (interpolate_from last i s) = List.length s.
Proof.
  revert last i; induction s as [|[v|] s IH]; intros; simpl; auto.
Qed.

Lemma ffill_from_length last s :
  List.length (ffill_from last s) = List.length s.
Proof.
  revert last; induction s as [|[v|] s IH]; intros; simpl; auto.
Qed.

Lemma bfill_length s : List.length (bfill s) = List.length s.
Proof.
  induction s as [|[v|] s IH]; simpl; auto.
Qed.

Lemma fill_length s : List.length (fill s) = List.length s.
Proof.
  unfold fill, ffill, interpolate.
  now rewrite bfill_length, ffill_from_length, interpolate_from_length.
Qed.

(** Each pass works through a prefix and carries on with the rest. *)
Lemma interpolate_from_app a b last i :
  exists a' last',
    List.length a' = List.length a /\
    interpolate_from last i (a ++ b)
    = a' ++ interpolate_from last' (i + List.length a) b.
Proof.
  revert last i; induction a as [|[v|] a IH]; intros; simpl.
  - exists [], last. now rewrite Nat.add_0_r.
  - destruct (IH (Some (i, v)) (S i)) as (a' & last' & Hl & He).
    exists (Some v :: a'), last'. simpl. rewrite He, Hl.
    split; [reflexivity|]. now rewrite Nat.add_succ_r.
  - destruct (IH last (S i)) as (a' & last' & Hl & He).
    eexists (_ :: a'), last'. simpl. rewrite He, Hl.
    split; [reflexivity|]. now rewrite Nat.add_succ_r.
Qed.

Lemma ffill_from_app a b last :
  exists a' last',
    List.length a' = List.length a /\
    ffill_from last (a ++ b) = a' ++ ffill_from last' b.
Proof.
  revert last; induction a as [|[v|] a IH]; intros; simpl.
  - now exists [], last.
  - destruct (IH (Some v)) as (a' & last' & Hl & He).
    exists (Some v :: a'), last'. simpl. now rewrite He, Hl.
  - destruct (IH last) as (a' & last' & Hl & He).
    exists (last :: a'), last'. simpl. now rewrite He, Hl.
Qed.

Lemma bfill_app a b :
  exists a', List.length a' = List.length a /\ bfill (a ++ b) = a' ++ bfill b.
Proof.
  induction a as [|[v|] a (a' & Hl & He)]; simpl.
  - now exists [].
  - exists (Some v :: a'). simpl. now rewrite He, Hl.
  - eexists (_ :: a'). simpl. rewrite He, Hl. split; reflexivity.
Qed.

(** A series without gaps goes through every pass unchanged. *)
Lemma first_valid_gap i k : first_valid i (repeat None k) = None.
Proof.
  revert i; induction k; intros; simpl; auto.
Qed.

Lemma interpolate_from_known last i s :
  Forall known s -> interpolate_from last i s = s.
Proof.
  intros H; revert last i; induction H as [|[v|] s Hk Hs IH]; intros; simpl.
  - reflexivity.
  - now rewrite IH.
  - now elim Hk.
Qed.

Lemma ffill_from_known last s : Forall known s -> ffill_from last s = s.
Proof.
  intros H; revert last; induction H as [|[v|] s Hk Hs IH]; intros; simpl.
  - reflexivity.
  - now rewrite IH.
  - now elim Hk.
Qed.

Lemma bfill_known s : Forall known s -> bfill s = s.
Proof.
  induction 1 as [|[v|] s Hk Hs IH]; simpl.
  - reflexivity.
  - now rewrite IH.
  - now elim Hk.
Qed.

Lemma known_repeat v k : Forall known (repeat (Some v) k).
Proof.
  induction k; simpl; constructor; auto. discriminate.
Qed.

(** After a known entry, forward fill leaves no gap. *)
Lemma ffill_from_some v s : Forall known (ffill_from (Some v) s).
Proof.
  revert v; induction s as [|[w|] s IH]; intros; simpl; constructor; auto;
    discriminate.
Qed.

(** Interpolation keeps every known entry. *)
Lemma interpolate_from_keeps last i s v :
  In (Some v) s -> In (Some v) (interpolate_from last i s).
Proof.
  revert last i; induction s as [|[w|] s IH]; intros last i H; simpl in *.
  - assumption.
  - destruct H as [H|H]; [now left | right; now apply IH].
  - destruct H as [H|H]; [discriminate | right; now apply IH].
Qed.

(** Forward fill: a run of gaps, then no gap at all. *)
Lemma ffill_shape s v :
  In (Some v) s ->
  exists k t, ffill s = repeat None k ++ t /\ t <> [] /\ Forall known t.
Proof.
  unfold ffill. induction s as [|[w|] s IH]; intros H; simpl in *.
  - contradiction.
  - exists 0%nat, (Some w :: ffill_from (Some w) s). simpl.
    repeat split; [discriminate|].
    constructor; [discriminate | apply ffill_from_some].
  - destruct H as [H|H]; [discriminate|].
    destruct (IH H) as (k & t & He & Hn & Hk).
    exists (S k), t. simpl. now rewrite He.
Qed.

Lemma bfill_gap_then_known k t :
  t <> [] -> Forall known t ->
  exists v, hd None t = Some v /\
            bfill (repeat None k ++ t) = repeat (Some v) k ++ t.
Proof.
  intros Hn Hk. destruct t as [|[v|] t]; [now elim Hn | | ].
  - exists v. split; [reflexivity|].
    induction k; simpl.
    + now rewrite (bfill_known _ (Forall_inv_tail Hk)).
    + rewrite IHk. destruct k; reflexivity.
  - apply Forall_inv in Hk. now elim Hk.
Qed.

(** Whenever a series holds one known value, filling closes every gap. *)
Lemma fill_complete s v : In (Some v) s -> Forall known (fill s).
Proof.
  intros H. unfold fill.
  assert (Hi : In (Some v) (interpolate s))
    by (apply interpolate_from_keeps; exact H).
  destruct (ffill_shape _ _ Hi) as (k & t & He & Hn & Hk).
  rewrite He.
  destruct (bfill_gap_then_known k t Hn Hk) as (w & _ & Hb).
  rewrite Hb. apply Forall_app. split; [apply known_repeat | exact Hk].
Qed.

(** One missing entry between two known ones. *)
Lemma lerp_middle j v1 v2 :
  lerp j v1 (S (S j)) v2 (S j) == (v1 + v2) / 2.
Proof.
  unfold lerp, pos.
  assert (H2 : inject_Z (Z.of_nat (S (S j))) - inject_Z (Z.of_nat j) == 2).
  { unfold Qminus. rewrite <- inject_Z_opp, <- inject_Z_plus.
    replace (Z.of_nat (S (S j)) + - Z.of_nat j)%Z with 2%Z by lia.
    reflexivity. }
  assert (H1 : inject_Z (Z.of_nat (S j)) - inject_Z (Z.of_nat j) == 1).
  { unfold Qminus. rewrite <- inject_Z_opp, <- inject_Z_plus.
    replace (Z.of_nat (S j) + - Z.of_nat j)%Z with 1%Z by lia.
    reflexivity. }
  rewrite H2, H1. field.
Qed.

Lemma fill_single_gap pre v1 v2 post :
  exists pre' post',
    List.length pre' = List.length pre /\
    fill (pre ++ Some v1 :: None :: Some v2 :: post)
    = pre' ++ Some v1
           :: Some (lerp (List.length pre) v1 (S (S (List.length pre))) v2
                         (S (List.length pre)))
           :: Some v2 :: post'.
Proof.
  set (j := List.length pre).
  set (x := interpolate_from (Some (S (S j), v2)) (S (S (S j))) post).
  destruct (interpolate_from_app pre (Some v1 :: None :: Some v2 :: post)
                                 None 0) as (a & la & Hl & He).
  destruct (ffill_from_app a
              (Some v1 :: Some (lerp j v1 (S (S j)) v2 (S j)) :: Some v2 :: x)
              None) as (b & lb & Hlb & Hb).
  destruct (bfill_app b
              (Some v1 :: Some (lerp j v1 (S (S j)) v2 (S j)) :: Some v2
                 :: ffill_from (Some v2) x)) as (c & Hlc & Hc).
  exists c, (bfill (ffill_from (Some v2) x)).
  split; [exact (eq_trans Hlc (eq_trans Hlb Hl))|].
  unfold fill, interpolate, ffill.
  rewrite He. simpl. fold j. fold x. rewrite Hb. simpl. rewrite Hc.
  reflexivity.
Qed.

(** A gap at the start of the series. *)
Lemma interpolate_from_leading k b i :
  interpolate_from None i (repeat None k ++ b)
  = repeat None k ++ interpolate_from None (i + k) b.
Proof.
  revert i; induction k; intros; simpl.
  - now rewrite Nat.add_0_r.
  - rewrite IHk. now rewrite Nat.add_succ_r.
Qed.

Lemma ffill_from_leading k b :
  ffill_from None (repeat None k ++ b) = repeat None k ++ ffill_from None b.
Proof.
  induction k; simpl; [reflexivity | now rewrite IHk].
Qed.

Lemma fill_leading k v rest :
  exists rest',
    List.length rest' = List.length rest /\
    fill (repeat None k ++ Some v :: rest)
    = repeat (Some v) k ++ Some v :: rest'.
Proof.
  set (x := ffill_from (Some v) (interpolate_from (Some (k, v)) (S k) rest)).
  assert (Hk : Forall known (Some v :: x)).
  { constructor; [discriminate | apply ffill_from_some]. }
  destruct (bfill_gap_then_known k (Some v :: x) ltac:(discriminate) Hk)
    as (w & Hw & Hb).
  simpl in Hw. injection Hw as <-.
  exists x. split.
  - unfold x. now rewrite ffill_from_length, interpolate_from_length.
  - unfold fill, interpolate, ffill.
    rewrite interpolate_from_leading, ffill_from_leading. simpl.
    fold x. exact Hb.
Qed.

(** A gap at the end of the series. *)
Lemma interpolate_from_trailing a v i k :
  interpolate_from (Some (a, v)) i (repeat None k) = repeat (Some v) k.
Proof.
  revert i; induction k; intros; simpl; [reflexivity|].
  now rewrite first_valid_gap, IHk.
Qed.

Lemma fill_trailing pre v k :
  exists pre',
    List.length pre' = List.length pre /\
    fill (pre ++ Some v :: repeat None k)
    = pre' ++ Some v :: repeat (Some v) k.
Proof.
  assert (Hk : Forall known (Some v :: repeat (Some v) k)).
  { constructor; [discriminate | apply known_repeat]. }
  destruct (interpolate_from_app pre (Some v :: repeat None k) None 0)
    as (a & la & Hl & He).
  destruct (ffill_from_app a (Some v :: repeat (Some v) k) None)
    as (b & lb & Hlb & Hb).
  destruct (bfill_app b (Some v :: repeat (Some v) k)) as (c & Hlc & Hc).
  exists c. split; [exact (eq_trans Hlc (eq_trans Hlb Hl))|].
  unfold fill, interpolate, ffill.
  rewrite He. simpl. rewrite interpolate_from_trailing.
  rewrite Hb, (ffill_from_known _ _ Hk), Hc, (bfill_known _ Hk).
  reflexivity.
Qed.

End SeriesFacts.

(** ** Sorting *)

Section SortFacts.
Context {A : Type} (leb : A -> A -> bool).

Let le (a b : A) : Prop := leb a b = true.

Lemma insert_perm x l : Permutation (insert leb x l) (x :: l).
Proof.
  induction l as [|y l IH]; simpl.
  - reflexivity.
  - destruct (leb x y); [reflexivity|].
    rewrite IH. apply perm_swap.
Qed.

Lemma isort_perm l : Permutation (isort leb l) l.
Proof.
  induction l as [|x l IH]; simpl.
  - constructor.
  - rewrite insert_perm. now constructor.
Qed.

Hypothesis leb_total : forall x y, leb x y = true \/ leb y x = true.

Lemma insert_sorted x l : Sorted le l -> Sorted le (insert leb x l).
Proof.
  induction 1 as [|y l Hs IH Hd]; simpl.
  - repeat constructor.
  - destruct (leb x y) eqn:E.
    + constructor; [now constructor | now constructor].
    + constructor; [exact IH|].
      destruct Hd as [|z l Hyz]; simpl.
      * constructor. destruct (leb_total x y) as [H|H]; [congruence | exact H].
      * destruct (leb x z); constructor; [|exact Hyz].
        destruct (leb_total x y) as [H|H]; [congruence | exact H].
Qed.

Lemma isort_sorted l : Sorted le (isort leb l).
Proof.
  induction l as [|x l IH]; simpl; [constructor | now apply insert_sorted].
Qed.

Hypothesis leb_trans :
  forall x y z, leb x y = true -> leb y z = true -> leb x z = true.

Lemma isort_strongly_sorted l : StronglySorted le (isort leb l).
Proof.
  apply Sorted_StronglySorted; [|apply isort_sorted].
  intros x y z. apply leb_trans.
Qed.

End SortFacts.

Lemma StronglySorted_filter {A} (R : A -> A -> Prop) (p : A -> bool) l :
  StronglySorted R l -> StronglySorted R (filter p l).
Proof.
  induction 1 as [|x l Hs IH Hf]; simpl; [constructor|].
  destruct (p x); [|exact IH].
  constructor; [exact IH|].
  rewrite Forall_forall in *. intros y Hy.
  apply filter_In in Hy. now apply Hf.
Qed.

Lemma StronglySorted_map {A B} (R : B -> B -> Prop) (f : A -> B) l :
  StronglySorted (fun a b => R (f a) (f b)) l -> StronglySorted R (map f l).
Proof.
  induction 1 as [|x l Hs IH Hf]; simpl; constructor; [exact IH|].
  rewrite Forall_forall in *. intros y Hy.
  apply in_map_iff in Hy. destruct Hy as (a & <- & Ha). now apply Hf.
Qed.

Lemma StronglySorted_weaken {A} (R R' : A -> A -> Prop) l :
  (forall a b, In a l -> In b l -> R a b -> R' a b) ->
  StronglySorted R l -> StronglySorted R' l.
Proof.
  intros H Hs. induction Hs as [|x l Hs IH Hf]; constructor.
  - apply IH. intros a b Ha Hb. apply H; now right.
  - rewrite Forall_forall in *. intros y Hy.
    apply H; [now left | now right | now apply Hf].
Qed.

Lemma firstn_repeat_app {A} (x : A) k l :
  firstn (S k) (repeat x k ++ x :: l) = repeat x (S k).
Proof.
  induction k as [|k IH]; [reflexivity|].
  change (firstn (S (S k)) (repeat x (S k) ++ x :: l))
    with (x :: firstn (S k) (repeat x k ++ x :: l)).
  now rewrite IH.
Qed.

(** The order of strings by character codes is transitive. *)
Lemma ascii_compare_lt_trans a b c :
  Ascii.compare a b = Lt -> Ascii.compare b c = Lt -> Ascii.compare a c = Lt.
Proof.
  unfold Ascii.compare. rewrite !N.compare_lt_iff. apply N.lt_trans.
Qed.

Lemma string_compare_lt_trans s1 : forall s2 s3,
  String.compare s1 s2 = Lt -> String.compare s2 s3 = Lt ->
  String.compare s1 s3 = Lt.
Proof.
  induction s1 as [|a s1 IH]; intros [|b s2] [|c s3]; simpl;
    try discriminate; auto.
  destruct (Ascii.compare a b) eqn:Eab; try discriminate;
    destruct (Ascii.compare b c) eqn:Ebc; try discriminate; intros H1 H2.
  - apply Ascii.compare_eq_iff in Eab, Ebc. subst.
    assert (Hc : Ascii.compare c c = Eq) by apply N.compare_refl.
    rewrite Hc. eapply IH; eauto.
  - apply Ascii.compare_eq_iff in Eab. subst. now rewrite Ebc.
  - apply Ascii.compare_eq_iff in Ebc. subst. now rewrite Eab.
  - now rewrite (ascii_compare_lt_trans _ _ _ Eab Ebc).
Qed.

Lemma string_compare_refl s : String.compare s s = Eq.
Proof.
  induction s as [|a s IH]; simpl; [reflexivity|].
  assert (Ha : Ascii.compare a a = Eq) by apply N.compare_refl.
  now rewrite Ha.
Qed.

(** ** The cleaner *)

Module CleanFacts.
Import Clean.

Lemma key_leb_total {V} (r1 r2 : row V) :
  key_leb r1 r2 = true \/ key_leb r2 r1 = true.
Proof.
  unfold key_leb.
  destruct (country r1) as [a|], (country r2) as [b|]; auto.
  - rewrite (String.compare_antisym b a).
    destruct (String.compare a b) eqn:E; simpl; auto.
    destruct (Z.le_ge_cases (year r1) (year r2)) as [H|H];
      apply Z.leb_le in H; auto.
  - destruct (Z.le_ge_cases (year r1) (year r2)) as [H|H];
      apply Z.leb_le in H; auto.
Qed.

Lemma key_leb_trans {V} (r1 r2 r3 : row V) :
  key_leb r1 r2 = true -> key_leb r2 r3 = true -> key_leb r1 r3 = true.
Proof.
  unfold key_leb.
  destruct (country r1) as [a|], (country r2) as [b|], (country r3) as [c|];
    try discriminate; auto.
  - destruct (String.compare a b) eqn:Eab; try discriminate;
      destruct (String.compare b c) eqn:Ebc; try discriminate; intros H1 H2.
    + apply String.compare_eq_iff in Eab, Ebc. subst.
      rewrite string_compare_refl. apply Z.leb_le.
      apply Z.leb_le in H1, H2. lia.
    + apply String.compare_eq_iff in Eab. subst. now rewrite Ebc.
    + apply String.compare_eq_iff in Ebc. subst. now rewrite Eab.
    + now rewrite (string_compare_lt_trans _ _ _ Eab Ebc).
  - intros H1 H2. apply Z.leb_le. apply Z.leb_le in H1, H2. lia.
Qed.

Lemma key_leb_le {V} (r1 r2 : row V) :
  key_leb r1 r2 = true -> key_le (key_of r1) (key_of r2).
Proof.
  unfold key_leb, key_le, key_of; simpl.
  destruct (country r1) as [a|], (country r2) as [b|]; simpl;
    try discriminate; try (intros; exact I).
  - destruct (String.compare a b) eqn:E; try discriminate; auto.
    intros H. right. split; [now apply String.compare_eq_iff|].
    now apply Z.leb_le.
  - intros H. now apply Z.leb_le.
Qed.

(** Sorting moves rows and nothing else. *)
Lemma sort_values_perm {V} (t : list (row V)) :
  Permutation (sort_values t) t.
Proof. apply isort_perm. Qed.

Lemma sort_values_sorted {V} (t : list (row V)) :
  StronglySorted (fun r1 r2 => key_le (key_of r1) (key_of r2))
                 (sort_values t).
Proof.
  apply StronglySorted_weaken
    with (R := fun r1 r2 : row V => key_leb r1 r2 = true).
  - intros a b _ _. apply key_leb_le.
  - apply isort_strongly_sorted; [apply key_leb_total | apply key_leb_trans].
Qed.

(** The transform rewrites the measures and leaves the rest of each row
    and the order of the rows alone. *)
Lemma transform_from_ident f whole seen rest :
  map ident (transform_from f whole seen rest) = map ident rest.
Proof.
  revert seen; induction rest as [|r rest IH]; intros; simpl.
  - reflexivity.
  - now rewrite IH.
Qed.

Lemma transform_from_key f whole seen rest :
  map key_of (transform_from f whole seen rest) = map key_of rest.
Proof.
  revert seen; induction rest as [|r rest IH]; intros; simpl.
  - reflexivity.
  - now rewrite IH.
Qed.

Lemma group_cons {V} c (r : row V) l :
  group c (r :: l) = if in_group c r then r :: group c l else group c l.
Proof. reflexivity. Qed.

Lemma group_cons_set_vals {V W} c (r : row V) (g : measure -> W) l :
  group c (set_vals r g :: l)
  = if in_group c r then set_vals r g :: group c l else group c l.
Proof. reflexivity. Qed.

Lemma in_group_country {V} c (r : row V) :
  in_group c r = true <-> country r = Some c.
Proof.
  unfold in_group. destruct (country r) as [c'|]; split; try discriminate.
  - intros H. apply String.eqb_eq in H. now subst.
  - intros [= ->]. apply String.eqb_refl.
Qed.

Lemma transform_from_years f c whole seen rest :
  years_of_group c (transform_from f whole seen rest)
  = years_of_group c rest.
Proof.
  unfold years_of_group.
  revert seen; induction rest as [|r rest IH]; intros; cbn [transform_from].
  - reflexivity.
  - rewrite group_cons_set_vals, group_cons.
    destruct (in_group c r); cbn [map]; now rewrite IH.
Qed.

Lemma map_nth_seq {A} (d : A) (l : list A) :
  map (fun k => nth k l d) (seq 0 (List.length l)) = l.
Proof.
  induction l as [|x l IH]; simpl; [reflexivity|].
  f_equal. rewrite <- seq_shift, map_map. exact IH.
Qed.

Lemma transform_from_series f c m whole seen rest :
  series c m (transform_from f whole seen rest)
  = map (fun k => nth k (f (series c m whole)) None)
        (seq (List.length (group c seen)) (List.length (group c rest))).
Proof.
  unfold series at 1.
  revert seen; induction rest as [|r rest IH]; intros; cbn [transform_from].
  - reflexivity.
  - rewrite group_cons_set_vals, group_cons.
    destruct (in_group c r) eqn:E.
    + cbn [map List.length seq]. rewrite IH, group_cons, E.
      apply in_group_country in E.
      cbn [set_vals val List.length]. now rewrite E.
    + rewrite IH, group_cons, E. reflexivity.
Qed.

(** What [transform] does to a group: its series becomes [f] of it. *)
Lemma transform_series f c m t :
  (forall s, List.length (f s) = List.length s) ->
  series c m (transform f t) = f (series c m t).
Proof.
  intros Hf. unfold transform. rewrite transform_from_series. simpl.
  replace (List.length (group c t))
    with (List.length (f (series c m t)))
    by (rewrite Hf; unfold series; now rewrite length_map).
  apply map_nth_seq.
Qed.

Lemma load_data_series csv c m :
  series c m (load_data csv) = Series.fill (series c m (prepare csv)).
Proof.
  unfold load_data. apply transform_series, SeriesFacts.fill_length.
Qed.

Lemma load_data_years csv c :
  years_of_group c (load_data csv) = years_of_group c (prepare csv).
Proof. apply transform_from_years. Qed.

(** Within one country the rows run in ascending year order. *)
Lemma prepare_years_sorted csv c :
  StronglySorted Z.le (years_of_group c (prepare csv)).
Proof.
  unfold years_of_group. apply StronglySorted_map.
  apply StronglySorted_weaken
    with (R := fun r1 r2 : row (option Q) => key_le (key_of r1) (key_of r2)).
  - intros a b Ha Hb. unfold group in Ha, Hb.
    apply filter_In in Ha, Hb. destruct Ha as [_ Ha], Hb as [_ Hb].
    unfold in_group in Ha, Hb. unfold key_le, key_of; simpl.
    destruct (country a) as [ca|]; [|discriminate].
    destruct (country b) as [cb|]; [|discriminate].
    apply String.eqb_eq in Ha, Hb. subst.
    rewrite string_compare_refl. intros [H|[_ H]]; [discriminate | exact H].
  - apply StronglySorted_filter, sort_values_sorted.
Qed.

End CleanFacts.

(** ** Claims about the cleaner *)

(** C1 (as amended).  Where a country's series has one missing entry
    between two rows with known values [v1] and [v2], the cleaner fills
    it with the value half way between them: [interpolate] spaces the
    rows equally whatever their years.  This is the interpolation along
    the year axis exactly when the missing year lies midway between the
    two known years. *)
Theorem C1_single_gap_filled_by_position
        csv c m pre v1 v2 post :
  Clean.series c m (Clean.prepare csv)
  = pre ++ Some v1 :: None :: Some v2 :: post ->
  exists q,
    nth_error (Clean.series c m (Clean.load_data csv)) (S (List.length pre))
    = Some (Some q) /\
    q == (v1 + v2) / 2 /\
    forall y1 y y2 : Z,
      (y1 < y)%Z -> (y - y1 = y2 - y)%Z -> q == year_lerp y1 v1 y2 v2 y.
Proof.
  intros H. rewrite CleanFacts.load_data_series, H.
  destruct (SeriesFacts.fill_single_gap pre v1 v2 post)
    as (pre' & post' & Hl & He).
  rewrite He, <- Hl.
  eexists. split; [|split].
  - rewrite nth_error_app2 by lia.
    replace (S (List.length pre') - List.length pre')%nat with 1%nat by lia.
    reflexivity.
  - apply SeriesFacts.lerp_middle.
  - intros y1 y y2 Hlt Heq. rewrite SeriesFacts.lerp_middle.
    unfold year_lerp.
    replace (y2 - y1)%Z with (2 * (y - y1))%Z by lia.
    rewrite inject_Z_mult.
    assert (Hd : ~ inject_Z (y - y1) == 0).
    { unfold Qeq, inject_Z. simpl. lia. }
    field. exact Hd.
Qed.

(** The example of the specification: 10 in 2000, nothing in 2002, 30 in
    2004 gives 20 for 2002. *)
Lemma C1_single_gap_example :
  exists q,
    nth_error (Clean.series "A" co2 (Clean.load_data Sample.even_years)) 1
    = Some (Some q) /\
    q == 20 /\ q == year_lerp 2000 10 2004 30 2002.
Proof.
  destruct (C1_single_gap_filled_by_position
              Sample.even_years "A" co2 [] 10 30 [] eq_refl)
    as (q & Hq & Hm & Hy).
  exists q. split; [exact Hq|]. split.
  - rewrite Hm. reflexivity.
  - apply Hy; reflexivity.
Defined.

(** C1 as stated fails: with rows for 2000, 2001 and 2004 the cleaner
    fills 2001 with 20, the year axis gives 15. *)
Lemma C1_year_axis_counterexample :
  ~ (forall csv c m pre v1 v2 post y1 y y2 q,
        Clean.series c m (Clean.prepare csv)
        = pre ++ Some v1 :: None :: Some v2 :: post ->
        firstn 3 (skipn (List.length pre)
                        (years_of_group c (Clean.load_data csv)))
        = [y1; y; y2] ->
        (y1 < y < y2)%Z ->
        nth_error (Clean.series c m (Clean.load_data csv))
                  (S (List.length pre)) = Some (Some q) ->
        q == year_lerp y1 v1 y2 v2 y).
Proof.
  intros H.
  specialize (H Sample.uneven_years "A"%string co2 [] 10 30 []
                2000%Z 2001%Z 2004%Z (40 # 2)
                eq_refl eq_refl ltac:(lia) eq_refl).
  vm_compute in H. discriminate H.
Qed.

(** C2.  For every country and every measure column: if the country's
    series holds at least one number, then after cleaning it holds a
    number in every row, and it has as many rows as before. *)
Theorem C2_no_gap_left csv c m v :
  In (Some v) (Clean.series c m (Clean.prepare csv)) ->
  Forall known (Clean.series c m (Clean.load_data csv)) /\
  List.length (Clean.series c m (Clean.load_data csv))
  = List.length (Clean.series c m (Clean.prepare csv)).
Proof.
  intros H. rewrite CleanFacts.load_data_series. split.
  - eapply SeriesFacts.fill_complete; eauto.
  - apply SeriesFacts.fill_length.
Qed.

Lemma C2_no_gap_left_example :
  Forall known (Clean.series "B" co2 (Clean.load_data Sample.ragged)) /\
  List.length (Clean.series "B" co2 (Clean.load_data Sample.ragged)) = 3%nat.
Proof.
  apply (C2_no_gap_left Sample.ragged "B" co2 5).
  vm_compute. auto.
Defined.

(** C3.  The cleaned table holds the rows of the file whose [iso_code]
    has exactly three characters, each as often as the file has it and
    with its index, code, country and year untouched, and no others; it
    is in ascending order of (country, year). *)
Theorem C3_rows_kept_and_sorted csv :
  Permutation (map ident (Clean.load_data csv))
              (map ident (filter Clean.iso_len3 csv)) /\
  (forall r : row raw,
      Clean.iso_len3 r = true <->
      exists s, iso_code r = Some s /\ String.length s = 3%nat) /\
  StronglySorted key_le (map key_of (Clean.load_data csv)).
Proof.
  split; [|split].
  - unfold Clean.load_data, Clean.transform.
    rewrite CleanFacts.transform_from_ident. unfold Clean.prepare.
    rewrite (Permutation_map ident (CleanFacts.sort_values_perm _)).
    rewrite map_map. reflexivity.
  - intros r. unfold Clean.iso_len3.
    destruct (iso_code r) as [s|]; split.
    + intros H. exists s. split; [reflexivity | now apply Nat.eqb_eq].
    + intros (s' & [= <-] & H). now apply Nat.eqb_eq.
    + discriminate.
    + intros (s' & H & _). discriminate.
  - unfold Clean.load_data, Clean.transform.
    rewrite CleanFacts.transform_from_key.
    apply StronglySorted_map, CleanFacts.sort_values_sorted.
Qed.

(** C4.  A gap at the start of a country's series is filled with the
    earliest known value, a gap at its end with the latest known value;
    the rows of the series are in ascending year order, so these are the
    nearest known values in time. *)
Theorem C4_boundary_gaps_take_nearest csv c m :
  (forall k v rest,
      Clean.series c m (Clean.prepare csv)
      = repeat None k ++ Some v :: rest ->
      firstn (S k) (Clean.series c m (Clean.load_data csv))
      = repeat (Some v) (S k)) /\
  (forall pre v k,
      Clean.series c m (Clean.prepare csv)
      = pre ++ Some v :: repeat None k ->
      skipn (List.length pre) (Clean.series c m (Clean.load_data csv))
      = repeat (Some v) (S k)) /\
  StronglySorted Z.le (years_of_group c (Clean.load_data csv)).
Proof.
  split; [|split].
  - intros k v rest H. rewrite CleanFacts.load_data_series, H.
    destruct (SeriesFacts.fill_leading k v rest) as (rest' & _ & He).
    rewrite He. apply firstn_repeat_app.
  - intros pre v k H. rewrite CleanFacts.load_data_series, H.
    destruct (SeriesFacts.fill_trailing pre v k) as (pre' & Hl & He).
    rewrite He, <- Hl, skipn_app, skipn_all, Nat.sub_diag. reflexivity.
  - rewrite CleanFacts.load_data_years. apply CleanFacts.prepare_years_sorted.
Qed.

Lemma C4_boundary_gaps_example :
  firstn 2 (Clean.series "B" co2 (Clean.load_data Sample.ragged))
  = [Some 5; Some 5] /\
  skipn 1 (Clean.series "B" co2 (Clean.load_data Sample.ragged))
  = [Some 5; Some 5].
Proof.
  destruct (C4_boundary_gaps_take_nearest Sample.ragged "B" co2)
    as (Hlead & Htrail & _).
  split.
  - exact (Hlead 1%nat 5 [None] eq_refl).
  - exact (Htrail [None] 5 1%nat eq_refl).
Defined.

(** ** Bar-chart race *)

Lemma filter_flat_map {A B} (p : B -> bool) (g : A -> list B) l :
  filter p (flat_map g l) = flat_map (fun x => filter p (g x)) l.
Proof.
  induction l as [|x l IH]; simpl; [reflexivity|].
  now rewrite filter_app, IH.
Qed.

Lemma filter_none {A} (p : A -> bool) l :
  (forall x, In x l -> p x = false) -> filter p l = [].
Proof.
  induction l as [|x l IH]; intros H; simpl; [reflexivity|].
  rewrite (H x) by now left. apply IH. intros y Hy. apply H. now right.
Qed.

Lemma filter_all {A} (p : A -> bool) l :
  (forall x, In x l -> p x = true) -> filter p l = l.
Proof.
  intros H. apply forallb_filter_id, forallb_forall, H.
Qed.

Lemma In_firstn {A} (x : A) n l : In x (firstn n l) -> In x l.
Proof.
  intros H. rewrite <- (firstn_skipn n l). apply in_or_app. now left.
Qed.

Lemma In_skipn {A} (x : A) n l : In x (skipn n l) -> In x l.
Proof.
  intros H. rewrite <- (firstn_skipn n l). apply in_or_app. now right.
Qed.

(** In a sorted list, whatever is among the first [n] stands in the
    order before whatever is not. *)
Lemma sorted_firstn_skipn {A} (R : A -> A -> Prop) l :
  StronglySorted R l ->
  forall n a b, In a (firstn n l) -> In b (skipn n l) -> R a b.
Proof.
  induction 1 as [|x l Hs IH Hf]; intros n a b Ha Hb.
  - destruct n; contradiction.
  - destruct n as [|n]; [contradiction|]. simpl in Ha, Hb.
    destruct Ha as [<-|Ha].
    + rewrite Forall_forall in Hf. apply Hf. eapply In_skipn; eauto.
    + eapply IH; eauto.
Qed.

Module BarRaceFacts.
Import BarRace.

Lemma co2_geb_total x y : co2_geb x y = true \/ co2_geb y x = true.
Proof.
  unfold co2_geb. rewrite !Qle_bool_iff.
  destruct (Qlt_le_dec (a_co2 x) (a_co2 y)) as [H|H]; auto.
  right. now apply Qlt_le_weak.
Qed.

Lemma co2_geb_trans x y z :
  co2_geb x y = true -> co2_geb y z = true -> co2_geb x z = true.
Proof.
  unfold co2_geb. rewrite !Qle_bool_iff. intros H1 H2.
  eapply Qle_trans; eauto.
Qed.

Lemma nlargest_in n d r : In r (nlargest n d) -> In r d.
Proof.
  intros H. apply In_firstn in H.
  eapply Permutation_in; [apply isort_perm | exact H].
Qed.

Lemma nlargest_length n d :
  List.length (nlargest n d) = Nat.min n (List.length d).
Proof.
  unfold nlargest.
  now rewrite length_firstn, (Permutation_length (isort_perm co2_geb d)).
Qed.

(** What [nlargest] keeps is at least as large as what it leaves. *)
Lemma nlargest_top n d :
  exists rest,
    Permutation (nlargest n d ++ rest) d /\
    forall a b, In a (nlargest n d) -> In b rest -> a_co2 b <= a_co2 a.
Proof.
  exists (skipn n (isort co2_geb d)). split.
  - unfold nlargest. rewrite firstn_skipn. apply isort_perm.
  - intros a b Ha Hb. apply Qle_bool_iff.
    change (co2_geb a b = true).
    apply (sorted_firstn_skipn (fun a b => co2_geb a b = true)
                               (isort co2_geb d)) with (n := n); auto.
    apply isort_strongly_sorted; [apply co2_geb_total | apply co2_geb_trans].
Qed.

Lemma years_NoDup a : NoDup (years a).
Proof.
  unfold years. eapply Permutation_NoDup.
  - symmetry. apply isort_perm.
  - apply NoDup_nodup.
Qed.

Lemma years_In a y : In y (years a) <-> In y (map a_year a).
Proof.
  unfold years. split; intros H.
  - apply (nodup_In Z.eq_dec).
    eapply Permutation_in; [apply isort_perm | exact H].
  - apply (nodup_In Z.eq_dec) in H.
    eapply Permutation_in; [symmetry; apply isort_perm | exact H].
Qed.

(** Of the groups laid end to end, the rows of year [y] are the group
    of [y]. *)
Lemma pick_group (g : Z -> list annual_row) y ys :
  (forall y' r, In r (g y') -> a_year r = y') ->
  NoDup ys ->
  (In y ys -> of_year y (flat_map g ys) = g y) /\
  (~ In y ys -> of_year y (flat_map g ys) = []).
Proof.
  intros Hg Hnd. unfold of_year. rewrite filter_flat_map.
  induction Hnd as [|y0 ys Hn Hnd [IHin IHout]]; cbn [flat_map].
  - split; [contradiction | reflexivity].
  - destruct (Z.eq_dec y0 y) as [->|Hne].
    + rewrite IHout by exact Hn. rewrite app_nil_r. split.
      * intros _. apply filter_all.
        intros r Hr. apply Z.eqb_eq. now apply Hg.
      * intros H. elim H. now left.
    + rewrite (filter_none (fun r => (a_year r =? y)%Z) (g y0)).
      * cbn [app]. split.
        -- intros [H|H]; [contradiction | now apply IHin].
        -- intros H. apply IHout. intros H'. apply H. now right.
      * intros r Hr. apply Z.eqb_neq. rewrite (Hg _ _ Hr). exact Hne.
Qed.

Lemma of_year_year y a r : In r (of_year y a) -> a_year r = y.
Proof.
  unfold of_year. intros H. apply filter_In in H.
  now apply Z.eqb_eq.
Qed.

(** A frame of the animation is the ten largest of its year. *)
Lemma frame_of_nlargest y t :
  frame_of y t = nlargest 10 (of_year y (annual t)).
Proof.
  unfold frame_of, top10_each.
  destruct (pick_group (fun y' => nlargest 10 (of_year y' (annual t)))
                       y (years (annual t))) as [Hin Hout].
  - intros y' r Hr. apply nlargest_in in Hr.
    now apply of_year_year in Hr.
  - apply years_NoDup.
  - destruct (in_dec Z.eq_dec y (years (annual t))) as [H|H].
    + now apply Hin.
    + rewrite (Hout H).
      replace (of_year y (annual t)) with (@nil annual_row); [reflexivity|].
      symmetry. apply filter_none.
      intros r Hr. apply Z.eqb_neq. intros E. apply H.
      apply years_In, in_map_iff. now exists r.
Qed.

Lemma group_keys_NoDup t : NoDup (group_keys t).
Proof.
  unfold group_keys. eapply Permutation_NoDup.
  - symmetry. apply isort_perm.
  - apply NoDup_nodup.
Qed.

Lemma group_keys_In t k :
  In k (group_keys t) <->
  exists r, In r t /\ year r = fst k /\ country r = Some (snd k).
Proof.
  unfold group_keys.
  transitivity (In k (keys t)).
  - split; intros H.
    + apply (nodup_In key_eq_dec).
      eapply Permutation_in; [apply isort_perm | exact H].
    + apply (nodup_In key_eq_dec) in H.
      eapply Permutation_in; [symmetry; apply isort_perm | exact H].
  - unfold keys. rewrite in_flat_map. split.
    + intros (r & Hr & Hk). exists r. split; [exact Hr|].
      destruct (country r) as [c|]; [|contradiction].
      destruct Hk as [<-|[]]. auto.
    + intros (r & Hr & Hy & Hc). exists r. split; [exact Hr|].
      rewrite Hc, Hy. left. now destruct k.
Qed.

Lemma of_year_annual y t :
  of_year y (annual t)
  = map (total_of t) (filter (fun k => (fst k =? y)%Z) (group_keys t)).
Proof.
  unfold of_year, annual. now rewrite filter_map_swap.
Qed.

Lemma of_year_countries_NoDup y t :
  NoDup (map a_country (of_year y (annual t))).
Proof.
  rewrite of_year_annual, map_map. simpl.
  apply NoDup_map_NoDup_ForallPairs.
  - intros k1 k2 H1 H2 E. apply filter_In in H1, H2.
    destruct H1 as [_ H1], H2 as [_ H2]. apply Z.eqb_eq in H1, H2.
    destruct k1, k2; simpl in *. congruence.
  - apply NoDup_filter, group_keys_NoDup.
Qed.

Lemma of_year_countries y t c :
  In c (map a_country (of_year y (annual t))) <->
  exists r, In r t /\ year r = y /\ country r = Some c.
Proof.
  rewrite of_year_annual, map_map. simpl. rewrite in_map_iff. split.
  - intros (k & <- & Hk). apply filter_In in Hk. destruct Hk as [Hk Hy].
    apply Z.eqb_eq in Hy. apply group_keys_In in Hk.
    destruct Hk as (r & Hr & Hyr & Hc). exists r. repeat split; congruence.
  - intros (r & Hr & Hy & Hc). exists (y, c). split; [reflexivity|].
    apply filter_In. split; [|apply Z.eqb_refl].
    apply group_keys_In. now exists r.
Qed.

Lemma of_year_totals y t e :
  In e (of_year y (annual t)) ->
  a_year e = y /\
  a_co2 e = sum_cells (map (fun r => val r co2)
                           (filter (in_key (y, a_country e)) t)).
Proof.
  rewrite of_year_annual, in_map_iff. intros (k & <- & Hk).
  apply filter_In in Hk. destruct Hk as [_ Hy]. apply Z.eqb_eq in Hy.
  destruct k as [y' c]; simpl in *. subst. auto.
Qed.

Lemma fold_sum_known l : forall acc,
  fold_left (fun acc c => match c with Some v => acc + v | None => acc end)
            l acc
  == acc + sum_known l.
Proof.
  induction l as [|[v|] l IH]; intros acc; cbn [fold_left sum_known].
  - ring.
  - rewrite IH. ring.
  - apply IH.
Qed.

(** The code's sum from the left is the sum of the numbers present. *)
Lemma sum_cells_sum_known l : sum_cells l == sum_known l.
Proof.
  unfold sum_cells. rewrite fold_sum_known. ring.
Qed.

Lemma in_key_rows_of y c t : filter (in_key (y, c)) t = rows_of y c t.
Proof.
  unfold rows_of. apply filter_ext. intros r.
  unfold in_key, Clean.in_group. cbn [fst snd label_eqb].
  destruct (country r); reflexivity.
Qed.

End BarRaceFacts.

(** C5.  For every year, the frame of the bar-chart race holds at most
    ten entries, for ten different countries; the year has one entry per
    country with a row in that year, whose value is the sum of the
    numbers the country's rows of that year have for [co2]; and the frame
    holds ten of them (all of them when there are fewer), each at least
    as large as every entry it leaves out. *)
Theorem C5_bar_race_frame_is_top10 csv y :
  (List.length (BarRace.frame_of y (Clean.load_data csv)) <= 10)%nat /\
  List.length (BarRace.frame_of y (Clean.load_data csv))
  = Nat.min 10 (List.length (BarRace.of_year y
                               (BarRace.annual (Clean.load_data csv)))) /\
  NoDup (map a_country (BarRace.frame_of y (Clean.load_data csv))) /\
  NoDup (map a_country
             (BarRace.of_year y (BarRace.annual (Clean.load_data csv)))) /\
  (forall c,
      In c (map a_country
                (BarRace.of_year y (BarRace.annual (Clean.load_data csv))))
      <-> exists r, In r (Clean.load_data csv) /\ year r = y /\
                    country r = Some c) /\
  (forall e,
      In e (BarRace.of_year y (BarRace.annual (Clean.load_data csv))) ->
      a_year e = y /\
      a_co2 e == sum_known
                   (map (fun r => val r co2)
                        (rows_of y (a_country e) (Clean.load_data csv)))) /\
  exists rest,
    Permutation (BarRace.frame_of y (Clean.load_data csv) ++ rest)
                (BarRace.of_year y (BarRace.annual (Clean.load_data csv))) /\
    forall a b,
      In a (BarRace.frame_of y (Clean.load_data csv)) -> In b rest ->
      a_co2 b <= a_co2 a.
Proof.
  rewrite BarRaceFacts.frame_of_nlargest.
  set (t := Clean.load_data csv).
  set (d := BarRace.of_year y (BarRace.annual t)).
  destruct (BarRaceFacts.nlargest_top 10 d) as (rest & Hp & Htop).
  pose proof (BarRaceFacts.of_year_countries_NoDup y t) as Hnd. fold d in Hnd.
  repeat split.
  - rewrite BarRaceFacts.nlargest_length. apply Nat.le_min_l.
  - apply BarRaceFacts.nlargest_length.
  - apply (Permutation_map a_country) in Hp. rewrite map_app in Hp.
    apply (NoDup_app_remove_r _ (map a_country rest)).
    eapply Permutation_NoDup; [symmetry; exact Hp | exact Hnd].
  - exact Hnd.
  - apply BarRaceFacts.of_year_countries.
  - apply BarRaceFacts.of_year_countries.
  - now apply (BarRaceFacts.of_year_totals y t e).
  - destruct (BarRaceFacts.of_year_totals y t e H) as [_ ->].
    rewrite BarRaceFacts.in_key_rows_of.
    apply BarRaceFacts.sum_cells_sum_known.
  - exists rest. split; [exact Hp | exact Htop].
Qed.

(** Eleven countries with 1 to 11 in the year 2000, the first of them
    with a second row of 20: the frame holds the first with its sum 21,
    then the countries with 11 down to 3, and leaves out the one with
    2. *)
Lemma C5_bar_race_frame_example :
  map (fun e => (a_country e, a_co2 e))
      (BarRace.frame_of 2000 (Clean.load_data Sample.eleven_countries))
  = [("C01", 21); ("C11", 11); ("C10", 10); ("C09", 9); ("C08", 8);
     ("C07", 7); ("C06", 6); ("C05", 5); ("C04", 4); ("C03", 3)]%string /\
  List.length (BarRace.frame_of 2000 (Clean.load_data Sample.eleven_countries))
  = 10%nat /\
  (forall e,
      In e (BarRace.of_year 2000
              (BarRace.annual (Clean.load_data Sample.eleven_countries))) ->
      a_co2 e == sum_known
                   (map (fun r => val r co2)
                        (rows_of 2000 (a_country e)
                                 (Clean.load_data Sample.eleven_countries)))).
Proof.
  destruct (C5_bar_race_frame_is_top10 Sample.eleven_countries 2000)
    as (_ & Hlen & _ & _ & _ & Htot & _).
  split; [|split].
  - vm_compute. reflexivity.
  - rewrite Hlen. vm_compute. reflexivity.
  - intros e He. now apply Htot.
Defined.

(** ** Derived columns *)

Module FFacts.

Lemma checked_div_nonzero a b :
  ~ b == 0 -> F.checked_div a b = Some (a / b).
Proof.
  intros H. unfold F.checked_div.
  destruct (Qeq_bool b 0) eqn:E; [|reflexivity].
  apply Qeq_bool_iff in E. contradiction.
Qed.

Lemma checked_div_zero a b : b == 0 -> F.checked_div a b = None.
Proof.
  intros H. unfold F.checked_div.
  apply Qeq_bool_iff in H. now rewrite H.
Qed.

Lemma div_fin a b : ~ b == 0 -> F.div (Fin a) (Fin b) = Fin (a / b).
Proof.
  intros H. simpl. now rewrite checked_div_nonzero.
Qed.

Lemma div_by_zero a b : b == 0 -> ~ F.finite (F.div (Fin a) (Fin b)).
Proof.
  intros H. simpl. rewrite checked_div_zero by exact H.
  destruct (a ?= 0); simpl; auto.
Qed.

Lemma max2_fin a b :
  exists c, F.max2 (Fin a) (Fin b) = Fin c /\ a <= c /\ b <= c /\
            (c = a \/ c = b).
Proof.
  simpl. destruct (Qle_bool a b) eqn:E.
  - exists b. apply Qle_bool_iff in E.
    repeat split; auto. apply Qle_refl.
  - exists a. repeat split; auto; [apply Qle_refl|].
    destruct (Qlt_le_dec a b) as [H|H]; [|exact H].
    apply Qlt_le_weak, Qle_bool_iff in H. congruence.
Qed.

Lemma fold_max2_fin l : forall a,
  Forall F.finite l ->
  exists M, fold_left F.max2 l (Fin a) = Fin M /\ a <= M /\
            (forall q, In (Fin q) l -> q <= M) /\
            (M = a \/ In (Fin M) l).
Proof.
  induction l as [|x l IH]; intros a Hf; cbn [fold_left].
  - exists a. repeat split; auto; [apply Qle_refl | contradiction].
  - inversion Hf as [|? ? Hx Hl]; subst.
    destruct x as [b| | |]; try contradiction.
    destruct (max2_fin a b) as (c & Hc & Hac & Hbc & Hor).
    rewrite Hc. destruct (IH c Hl) as (M & HM & HcM & Hall & Hin).
    exists M. repeat split; auto.
    + eapply Qle_trans; eauto.
    + intros q [[= ->]|Hq]; [eapply Qle_trans; eauto | auto].
    + destruct Hin as [->|Hin]; [|now right; right].
      destruct Hor as [->| ->]; [now left | now right; left].
Qed.

(** The maximum of a column of numbers is one of them and bounds them
    all. *)
Lemma max_fin l :
  l <> [] -> Forall F.finite l ->
  exists M, F.max l = Fin M /\ In (Fin M) l /\
            forall q, In (Fin q) l -> q <= M.
Proof.
  intros Hn Hf. destruct l as [|x l]; [now elim Hn|].
  inversion Hf as [|? ? Hx Hl]; subst.
  destruct x as [b| | |]; try contradiction.
  unfold F.max. simpl.
  destruct (fold_max2_fin l b Hl) as (M & HM & HbM & Hall & Hin).
  exists M. repeat split; auto.
  - destruct Hin as [->|Hin]; [now left | now right].
  - intros q [[= ->]|Hq]; auto.
Qed.

Lemma ratio_in_unit q M : 0 <= q -> q <= M -> 0 < M -> 0 <= q / M <= 1.
Proof.
  intros H0 H1 HM. split.
  - apply Qle_shift_div_l; [exact HM|]. now rewrite Qmult_0_l.
  - apply Qle_shift_div_r; [exact HM|]. now rewrite Qmult_1_l.
Qed.

Lemma positive_nonzero M : 0 < M -> ~ M == 0.
Proof.
  intros H E. rewrite E in H. now apply Qlt_irrefl in H.
Qed.

End FFacts.

(** ** Bubble map and radar *)

Lemma label_eqb_eq (a b : option string) : label_eqb a b = true <-> a = b.
Proof.
  destruct a as [x|], b as [y|]; simpl; split; try discriminate; auto.
  - intros H. apply String.eqb_eq in H. now subst.
  - intros [= ->]. apply String.eqb_refl.
Qed.

Lemma unique_In (l : list (option string)) x : In x (unique l) <-> In x l.
Proof.
  induction l as [|y l IH]; cbn [unique In]; [reflexivity|].
  rewrite filter_In, IH. cbv beta. split.
  - intros [H|[H _]]; auto.
  - intros [H|H]; auto.
    destruct (label_eqb y x) eqn:E.
    + apply label_eqb_eq in E. auto.
    + right. split; [exact H | reflexivity].
Qed.

Lemma combine_map_self {A B} (f : A -> B) l :
  combine l (map f l) = map (fun x => (x, f x)) l.
Proof.
  induction l as [|x l IH]; simpl; [reflexivity | now rewrite IH].
Qed.

Lemma dropna_In cols t r :
  In r (dropna cols t) <->
  In r t /\ forall m, In m cols -> known (val r m).
Proof.
  unfold dropna. rewrite filter_In, forallb_forall.
  split; intros [Hr H]; split; auto; intros m Hm; specialize (H m Hm).
  - unfold known. destruct (val r m); [discriminate | discriminate].
  - unfold known in H. destruct (val r m); [reflexivity | now elim H].
Qed.

Module RadarFacts.
Import Radar.

Lemma df_radar_rows t latest :
  df_radar t latest = map (fun r => (r, gdp_per_capita r)) (base t latest).
Proof. apply combine_map_self. Qed.



Lemma base_In t latest r :
  In r (base t latest) <->
  In r t /\ year r = latest /\
  forall m, In m [co2; co2_per_capita; gdp; population] -> known (val r m).
Proof.
  unfold base. rewrite dropna_In, filter_In, Z.eqb_eq. tauto.
Qed.

End RadarFacts.




Module BubbleFacts.
Import BubbleMap.

Lemma df_map_co2_known t r :
  In r (df_map t) -> exists q, val r co2 = Some q.
Proof.
  unfold df_map. rewrite dropna_In. intros [_ H].
  specialize (H co2 (or_intror (or_introl eq_refl))).
  destruct (val r co2) as [q|]; [now exists q | now elim H].
Qed.

Lemma co2_column_finite t :
  Forall F.finite (map (fun r => F.of_cell (val r co2)) (df_map t)).
Proof.
  apply Forall_forall. intros v Hv. apply in_map_iff in Hv.
  destruct Hv as (r & <- & Hr).
  destruct (df_map_co2_known t r Hr) as (q & ->). exact I.
Qed.

(** Every [co2] of the bubble-map table is at most the maximum. *)
Lemma co2_below_max t r q M :
  In r (df_map t) -> val r co2 = Some q -> co2_max (df_map t) = Fin M ->
  q <= M.
Proof.
  intros Hr Hq HM.
  assert (Hne : map (fun r => F.of_cell (val r co2)) (df_map t) <> []).
  { destruct (df_map t); [contradiction | discriminate]. }
  destruct (FFacts.max_fin _ Hne (co2_column_finite t))
    as (M' & HM' & _ & Hall).
  unfold co2_max in HM. rewrite HM' in HM. injection HM as ->.
  apply Hall. apply in_map_iff. exists r. split; [|exact Hr].
  now rewrite Hq.
Qed.

End BubbleFacts.

(** C7 (as amended).  For every row of the bubble-map table whose [co2]
    is not negative, when the largest [co2] of the table is positive,
    the bubble size is [co2] over that largest value, times 60, plus 5:
    a number between 5 and 65. *)
Theorem C7_bubble_size_in_range csv r q M :
  In r (BubbleMap.df_map (Clean.load_data csv)) ->
  val r co2 = Some q ->
  BubbleMap.co2_max (BubbleMap.df_map (Clean.load_data csv)) = Fin M ->
  0 <= q ->
  0 < M ->
  BubbleMap.bubble_size (BubbleMap.df_map (Clean.load_data csv)) r
  = Fin (q / M * 60 + 5) /\
  q <= M /\
  5 <= q / M * 60 + 5 <= 65.
Proof.
  intros Hr Hq HM H0 Hpos.
  pose proof (BubbleFacts.co2_below_max _ r q M Hr Hq HM) as HqM.
  destruct (FFacts.ratio_in_unit q M H0 HqM Hpos) as [Hlo Hhi].
  split; [|split; [exact HqM|]].
  - unfold BubbleMap.bubble_size. rewrite HM, Hq. cbn [F.of_cell].
    rewrite FFacts.div_fin by now apply FFacts.positive_nonzero.
    reflexivity.
  - split; lra.
Qed.

Lemma C7_bubble_size_example :
  exists r q M,
    In r (BubbleMap.df_map (Clean.load_data Sample.two_countries)) /\
    q == 4 /\ M == 8 /\
    BubbleMap.bubble_size
      (BubbleMap.df_map (Clean.load_data Sample.two_countries)) r
    = Fin (q / M * 60 + 5) /\
    5 <= q / M * 60 + 5 <= 65.
Proof.
  set (r := hd (Row 0 None None 0%Z (fun _ => None))
               (BubbleMap.df_map (Clean.load_data Sample.two_countries))).
  assert (Hr : In r (BubbleMap.df_map (Clean.load_data Sample.two_countries))).
  { vm_compute. left. reflexivity. }
  destruct (C7_bubble_size_in_range Sample.two_countries r 4 8 Hr)
    as (Hb & _ & Hrange); try reflexivity; try discriminate.
  exists r, 4, 8.
  split; [exact Hr|]. split; [reflexivity|]. split; [reflexivity|].
  split; [exact Hb | exact Hrange].
Defined.

(** C7 as stated fails: in a table whose every [co2] is 0 the maximum is
    0, every row satisfies 0 <= co2 <= maximum, and the bubble size is
    0/0, which is not a number. *)
Lemma C7_zero_maximum_counterexample :
  ~ (forall csv r q M,
        In r (BubbleMap.df_map (Clean.load_data csv)) ->
        val r co2 = Some q ->
        BubbleMap.co2_max (BubbleMap.df_map (Clean.load_data csv)) = Fin M ->
        0 <= q <= M ->
        F.within 5 65
          (BubbleMap.bubble_size (BubbleMap.df_map (Clean.load_data csv)) r)).
Proof.
  intros H.
  specialize (H Sample.no_emissions
                (hd (Row 0 None None 0%Z (fun _ => None))
                    (BubbleMap.df_map (Clean.load_data Sample.no_emissions)))
                0 0).
  assert (Hin : In (hd (Row 0 None None 0%Z (fun _ => None))
                       (BubbleMap.df_map
                          (Clean.load_data Sample.no_emissions)))
                   (BubbleMap.df_map (Clean.load_data Sample.no_emissions))).
  { vm_compute. left. reflexivity. }
  specialize (H Hin eq_refl eq_refl).
  assert (Hq : 0 <= 0 <= 0) by (split; apply Qle_refl).
  specialize (H Hq). vm_compute in H. exact H.
Qed.

(** C10.  The radar panel divides [gdp] by [population] as it finds
    them: on every row of its table both are present, the quotient is
    the rational [gdp / population] whenever [population] is not 0, and
    when it is 0 the checked division has no result and the column holds
    an infinity or NaN; and there is a file whose cleaned table has such
    a row. *)
Theorem C10_gdp_per_capita_unguarded :
  (forall csv latest r,
      In r (Radar.base (Clean.load_data csv) latest) ->
      exists g p,
        val r gdp = Some g /\ val r population = Some p /\
        (~ p == 0 ->
         F.checked_div g p = Some (g / p) /\
         Radar.gdp_per_capita r = Fin (g / p)) /\
        (p == 0 ->
         F.checked_div g p = None /\
         ~ F.finite (Radar.gdp_per_capita r))) /\
  (exists r,
      In r (Radar.base (Clean.load_data Sample.nobody_home) 2000) /\
      val r gdp = Some 6 /\ val r population = Some 0 /\
      F.checked_div 6 0 = None /\
      Radar.gdp_per_capita r = PInf).
Proof.
  split.
  - intros csv latest r Hr. apply RadarFacts.base_In in Hr.
    destruct Hr as (_ & _ & Hk).
    pose proof (Hk gdp ltac:(simpl; tauto)) as Hg.
    pose proof (Hk population ltac:(simpl; tauto)) as Hp.
    unfold known in Hg, Hp.
    destruct (val r gdp) as [g|] eqn:Eg; [|now elim Hg].
    destruct (val r population) as [p|] eqn:Ep; [|now elim Hp].
    exists g, p. repeat split.
    + now apply FFacts.checked_div_nonzero.
    + unfold Radar.gdp_per_capita. rewrite Eg, Ep.
      now apply FFacts.div_fin.
    + now apply FFacts.checked_div_zero.
    + unfold Radar.gdp_per_capita. rewrite Eg, Ep.
      now apply FFacts.div_by_zero.
  - exists (hd (Row 0 None None 0%Z (fun _ => None))
               (Radar.base (Clean.load_data Sample.nobody_home) 2000)).
    repeat split; try reflexivity.
    vm_compute. left. reflexivity.
Qed.

(** ** The store during a render pass *)

Module StoreFacts.

Lemma upd_length l o s : List.length (upd l o s) = List.length s.
Proof.
  revert l; induction s as [|x s IH]; intros [|l]; simpl; auto.
Qed.

Lemma upd_firstn n l o s :
  (n <= l)%nat -> firstn n (upd l o s) = firstn n s.
Proof.
  revert n l; induction s as [|x s IH]; intros [|n] [|l] H; simpl; auto;
    try lia.
  f_equal. apply IH. lia.
Qed.

Lemma upd_last s x o : upd (List.length s) o (s ++ [x]) = s ++ [o].
Proof.
  induction s as [|y s IH]; simpl; [reflexivity | now rewrite IH].
Qed.

Lemma nth_error_last {A} (s : list A) x :
  nth_error (s ++ [x]) (List.length s) = Some x.
Proof.
  rewrite nth_error_app2 by lia. now rewrite Nat.sub_diag.
Qed.

Lemma firstn_app_le {A} n (s ext : list A) :
  (n <= List.length s)%nat -> firstn n (s ++ ext) = firstn n s.
Proof.
  intros H. rewrite firstn_app.
  replace (n - List.length s)%nat with 0%nat by lia.
  simpl. apply app_nil_r.
Qed.

Section Keeps.
Variable n : nat.

Lemma keeps_ret {A} (a : A) (Q : A -> Prop) : Q a -> keeps n (ret a) Q.
Proof. intros H w Hn. simpl. auto. Qed.

Lemma keeps_throw {A} e (Q : A -> Prop) : keeps n (throw e) Q.
Proof. intros w Hn. simpl. auto. Qed.

Lemma keeps_bind {A B} (m : M A) (k : A -> M B) Q R :
  keeps n m Q -> (forall a, Q a -> keeps n (k a) R) ->
  keeps n (bind m k) R.
Proof.
  intros Hm Hk w Hn. unfold bind.
  destruct (Hm w Hn) as (H1 & H2 & H3).
  destruct (m w) as [[e|a] w1]; simpl in *.
  - auto.
  - destruct (Hk a H3 w1 H2) as (K1 & K2 & K3).
    rewrite K1. auto.
Qed.

Lemma keeps_weaken {A} (m : M A) (Q R : A -> Prop) :
  keeps n m Q -> (forall a, Q a -> R a) -> keeps n m R.
Proof.
  intros Hm HQ w Hn. destruct (Hm w Hn) as (H1 & H2 & H3).
  repeat split; auto. destruct (fst (m w)); auto.
Qed.

Lemma keeps_emit c : keeps n (emit c) (fun _ => True).
Proof. intros w Hn. simpl. auto. Qed.

Lemma keeps_alloc o : keeps n (alloc o) (fun l => (n <= l)%nat).
Proof.
  intros w Hn. simpl. rewrite length_app.
  repeat split; [now apply firstn_app_le | lia | exact Hn].
Qed.

Lemma keeps_frame_rows l : keeps n (frame_rows l) (fun _ => True).
Proof.
  intros w Hn. unfold frame_rows.
  destruct (nth_error (store w) l) as [[rows cols|rows]|]; simpl; auto.
Qed.

Lemma keeps_frame_column l name :
  keeps n (frame_column l name) (fun _ => True).
Proof.
  intros w Hn. unfold frame_column.
  destruct (nth_error (store w) l) as [[rows cols|rows]|]; simpl; auto.
  destruct (lookup_col name cols); simpl; auto.
Qed.

Lemma keeps_melted_rows l : keeps n (melted_rows l) (fun _ => True).
Proof.
  intros w Hn. unfold melted_rows.
  destruct (nth_error (store w) l) as [[rows cols|rows]|]; simpl; auto.
Qed.

(** Assigning a column touches the object assigned to and no other. *)
Lemma keeps_set_column l name values :
  (n <= l)%nat -> keeps n (set_column l name values) (fun _ => True).
Proof.
  intros Hl w Hn. unfold set_column.
  destruct (nth_error (store w) l) as [[rows cols|rows]|]; simpl; auto.
  rewrite upd_length, upd_firstn by exact Hl. auto.
Qed.

Lemma keeps_set_source l f :
  (n <= l)%nat -> keeps n (set_source l f) (fun _ => True).
Proof.
  intros Hl w Hn. unfold set_source.
  destruct (nth_error (store w) l) as [[rows cols|rows]|]; simpl; auto.
  rewrite upd_length, upd_firstn by exact Hl. auto.
Qed.

Lemma keeps_multiselect options default selection :
  keeps n (multiselect options default selection) (fun _ => True).
Proof.
  unfold multiselect.
  destruct (forallb _ default); [|apply keeps_throw].
  destruct (forallb _ selection);
    [now apply keeps_ret | apply keeps_throw].
Qed.

Lemma keeps_scatter_geo rows size latest :
  keeps n (scatter_geo rows size latest) (fun _ => True).
Proof.
  unfold scatter_geo.
  destruct (forallb valid_size size);
    [now apply keeps_ret | apply keeps_throw].
Qed.

Lemma keeps_when b m :
  keeps n m (fun _ => True) -> keeps n (when b m) (fun _ => True).
Proof.
  intros H. destruct b; simpl; [exact H | now apply keeps_ret].
Qed.

End Keeps.

Create HintDb keeps.

#[local] Hint Resolve keeps_emit keeps_frame_rows keeps_frame_column
  keeps_melted_rows keeps_multiselect keeps_scatter_geo keeps_alloc
  keeps_throw : keeps.

Ltac keeps_step :=
  first
    [ apply keeps_set_column; assumption
    | apply keeps_set_source; assumption
    | apply keeps_ret; exact I
    | solve [auto with keeps]
    | eapply keeps_bind;
      [ first [ solve [auto with keeps]
              | apply keeps_set_column; assumption
              | apply keeps_set_source; assumption ]
      | intros; cbv beta in * ] ].

Lemma keeps_bar_race_panel n df latest :
  keeps n (bar_race_panel df latest) (fun _ => True).
Proof. unfold bar_race_panel. repeat keeps_step. Qed.

Lemma keeps_bubble_map_panel n df latest :
  keeps n (bubble_map_panel df latest) (fun _ => True).
Proof. unfold bubble_map_panel. repeat keeps_step. Qed.

Lemma keeps_radar_panel n df latest selection :
  keeps n (radar_panel df latest selection) (fun _ => True).
Proof.
  unfold radar_panel. repeat keeps_step.
  match goal with
  | |- keeps _ (match ?c with _ => _ end) _ => destruct c
  end; [repeat keeps_step|].
  match goal with
  | |- keeps _ (match ?c with _ => _ end) _ => destruct c
  end; repeat keeps_step.
Qed.

Lemma keeps_sunburst_panel n df latest :
  keeps n (sunburst_panel df latest) (fun _ => True).
Proof. unfold sunburst_panel. repeat keeps_step. Qed.

(** A render pass, whatever panels it runs, leaves every object that
    was in the store before it as it was. *)
Lemma keeps_render n df latest viz selection :
  keeps n (render df latest viz selection) (fun _ => True).
Proof.
  unfold render.
  repeat (eapply keeps_bind; [apply keeps_when | intros]);
    try apply keeps_when.
  - apply keeps_bar_race_panel.
  - apply keeps_bubble_map_panel.
  - apply keeps_radar_panel.
  - apply keeps_sunburst_panel.
Qed.

Lemma keeps_nth_error {A} n (m : M A) Q w i :
  keeps n m Q -> (i < n)%nat -> (n <= List.length (store w))%nat ->
  nth_error (store (snd (m w))) i = nth_error (store w) i.
Proof.
  intros Hk Hi Hn. destruct (Hk w Hn) as (H & _ & _).
  apply (f_equal (fun s => nth_error s i)) in H.
  rewrite !nth_error_firstn in H.
  apply Nat.ltb_lt in Hi. now rewrite Hi in H.
Qed.

End StoreFacts.

Module RunFacts.

Lemma bind_emit {B} c (k : unit -> M B) w :
  bind (emit c) k w = k tt (World (store w) (page w ++ [c])).
Proof. reflexivity. Qed.

Lemma bind_alloc {B} o (k : loc -> M B) w :
  bind (alloc o) k w
  = k (List.length (store w)) (World (store w ++ [o]) (page w)).
Proof. reflexivity. Qed.

Lemma bind_frame_rows {B} l (k : list (row (option Q)) -> M B) w t cols :
  nth_error (store w) l = Some (Frame t cols) ->
  bind (frame_rows l) k w = k t w.
Proof. intros H. unfold bind, frame_rows. now rewrite H. Qed.

Lemma bind_frame_column {B} l name (k : list fval -> M B) w t cols v :
  nth_error (store w) l = Some (Frame t cols) ->
  lookup_col name cols = Some v ->
  bind (frame_column l name) k w = k v w.
Proof. intros H Hc. unfold bind, frame_column. now rewrite H, Hc. Qed.

Lemma bind_set_column {B} l name v (k : unit -> M B) w t cols :
  nth_error (store w) l = Some (Frame t cols) ->
  bind (set_column l name v) k w
  = k tt (World (upd l (Frame t ((name, v)
                   :: filter (fun c => negb (String.eqb name (fst c))) cols))
                     (store w))
                (page w)).
Proof. intros H. unfold bind, set_column. now rewrite H. Qed.



Lemma skipn_exact {A} (l l' : list A) : skipn (List.length l) (l ++ l') = l'.
Proof.
  rewrite skipn_app, skipn_all, Nat.sub_diag. reflexivity.
Qed.


End RunFacts.

(** ** Claims about the render pass *)



(** C9.  The script puts the cleaned table in the store first, and at
    the end of the script, with any choice of panels and any selection,
    whether the pass ran through or raised, that object is the cleaned
    table with no column added.  More generally a render pass leaves
    every object that was in the store before it unchanged: the columns
    [bubble_size] and [gdp_per_capita] go to objects the panels made. *)
Theorem C9_render_leaves_cleaned_table csv viz selection :
  nth_error (store (snd (script csv viz selection start))) 0%nat
  = Some (Frame (Clean.load_data csv) []) /\
  forall w df latest o,
    nth_error (store w) df = Some o ->
    nth_error (store (snd (render df latest viz selection w))) df = Some o.
Proof.
  split.
  - unfold script. rewrite RunFacts.bind_alloc. cbn [start store page app].
    cbn [List.length].
    erewrite StoreFacts.keeps_nth_error
      with (n := 1%nat) (Q := fun _ : unit => True);
      [reflexivity | | lia | cbn [store List.length]; lia].
    eapply StoreFacts.keeps_bind; [apply StoreFacts.keeps_frame_rows|].
    intros d _.
    eapply StoreFacts.keeps_bind with (Q := fun _ => True).
    + destruct (year_max d);
        [now apply StoreFacts.keeps_ret | apply StoreFacts.keeps_throw].
    + intros latest _.
      eapply StoreFacts.keeps_bind; [apply StoreFacts.keeps_emit|]. intros _ _.
      eapply StoreFacts.keeps_bind; [apply StoreFacts.keeps_emit|]. intros _ _.
      apply StoreFacts.keeps_render.
  - intros w df latest o H.
    assert (Hlt : (df < List.length (store w))%nat).
    { apply nth_error_Some. rewrite H. discriminate. }
    rewrite <- H.
    apply StoreFacts.keeps_nth_error
      with (n := S df) (Q := fun _ : unit => True); [|lia|lia].
    apply StoreFacts.keeps_render.
Qed.

Lemma C9_render_example :
  nth_error
    (store (snd (render 0%nat 2000%Z Sample.all_panels [Some "A"%string]
                        (World [Frame (Clean.load_data Sample.two_countries)
                                      []] []))))
    0%nat
  = Some (Frame (Clean.load_data Sample.two_countries) []).
Proof.
  apply (proj2 (C9_render_leaves_cleaned_table
                  Sample.two_countries Sample.all_panels
                  [Some "A"%string])).
  reflexivity.
Defined.


(* ================================================================== *)
(** * Further properties of the code *)

(** ** More on filling a series *)

Module SeriesMore.
Import Series.

Lemma interpolate_from_nth last i0 s : forall i v,
  nth_error s i = Some (Some v) ->
  nth_error (interpolate_from last i0 s) i = Some (Some v).
Proof.
  revert last i0; induction s as [|[w|] s IH]; intros last i0 [|i] v H;
    simpl in *; try discriminate; auto.
Qed.

Lemma ffill_from_nth last s : forall i v,
  nth_error s i = Some (Some v) ->
  nth_error (ffill_from last s) i = Some (Some v).
Proof.
  revert last; induction s as [|[w|] s IH]; intros last [|i] v H;
    simpl in *; try discriminate; auto.
Qed.

Lemma bfill_nth s : forall i v,
  nth_error s i = Some (Some v) -> nth_error (bfill s) i = Some (Some v).
Proof.
  induction s as [|[w|] s IH]; intros [|i] v H;
    simpl in *; try discriminate; auto.
Qed.

Lemma fill_nth s i v :
  nth_error s i = Some (Some v) -> nth_error (fill s) i = Some (Some v).
Proof.
  intros H. unfold fill, ffill, interpolate.
  now apply bfill_nth, ffill_from_nth, interpolate_from_nth.
Qed.

(** A series is either without any number or holds one. *)
Lemma missing_or_known (s : list (option Q)) :
  s = repeat None (List.length s) \/ exists v, In (Some v) s.
Proof.
  induction s as [|[v|] s IH]; simpl.
  - now left.
  - right. exists v. now left.
  - destruct IH as [IH|[v Hv]].
    + left. now rewrite <- IH.
    + right. exists v. now right.
Qed.

Lemma fill_gap_only k : fill (repeat None k) = repeat None k.
Proof.
  unfold fill, ffill, interpolate.
  replace (repeat None k) with (repeat (@None Q) k ++ []) at 1
    by apply app_nil_r.
  rewrite SeriesFacts.interpolate_from_leading. simpl. rewrite app_nil_r.
  replace (repeat None k) with (repeat (@None Q) k ++ []) at 1
    by apply app_nil_r.
  rewrite SeriesFacts.ffill_from_leading. simpl. rewrite app_nil_r.
  induction k as [|k IH]; simpl; [reflexivity|].
  rewrite IH. destruct k; reflexivity.
Qed.

Lemma fill_known s : Forall known s -> fill s = s.
Proof.
  intros H. unfold fill, ffill, interpolate.
  now rewrite SeriesFacts.interpolate_from_known,
    SeriesFacts.ffill_from_known, SeriesFacts.bfill_known.
Qed.

Lemma fill_twice s : fill (fill s) = fill s.
Proof.
  destruct (missing_or_known s) as [H|[v Hv]].
  - rewrite H. now rewrite !fill_gap_only.
  - apply fill_known. eapply SeriesFacts.fill_complete; eauto.
Qed.

End SeriesMore.

(** X1.  Cleaning never rewrites a value the file has: a number at some
    row of a country's series before the fill is at the same row
    after it. *)
Theorem X1_cleaning_keeps_known_values csv c m i v :
  nth_error (Clean.series c m (Clean.prepare csv)) i = Some (Some v) ->
  nth_error (Clean.series c m (Clean.load_data csv)) i = Some (Some v).
Proof.
  intros H. rewrite CleanFacts.load_data_series.
  now apply SeriesMore.fill_nth.
Qed.

Lemma X1_cleaning_keeps_known_values_example :
  nth_error (Clean.series "B" co2 (Clean.load_data Sample.ragged)) 1
  = Some (Some 5).
Proof.
  apply (X1_cleaning_keeps_known_values Sample.ragged "B" co2 1 5).
  reflexivity.
Defined.

(** X2.  A country without a single number in a column keeps that
    column empty: nothing is borrowed from other countries or other
    columns. *)
Theorem X2_country_without_data_stays_empty csv c m :
  (forall x, In x (Clean.series c m (Clean.prepare csv)) -> x = None) ->
  Clean.series c m (Clean.load_data csv)
  = repeat None (List.length (Clean.group c (Clean.prepare csv))).
Proof.
  intros H. rewrite CleanFacts.load_data_series.
  destruct (SeriesMore.missing_or_known (Clean.series c m (Clean.prepare csv)))
    as [E|[v Hv]].
  - rewrite E at 1. rewrite SeriesMore.fill_gap_only.
    unfold Clean.series. now rewrite length_map.
  - apply H in Hv. discriminate.
Qed.

Lemma X2_country_without_data_example :
  Clean.series "B" gdp (Clean.load_data Sample.ragged) = [None; None; None].
Proof.
  apply (X2_country_without_data_stays_empty Sample.ragged "B" gdp).
  intros x Hx. vm_compute in Hx.
  destruct Hx as [<-|[<-|[<-|[]]]]; reflexivity.
Defined.

(** X3.  The fill is idempotent: interpolate, forward fill and backward
    fill applied to a series they already went through change nothing. *)
Theorem X3_fill_idempotent s : Series.fill (Series.fill s) = Series.fill s.
Proof. apply SeriesMore.fill_twice. Qed.

Module GapFacts.
Import Series.

Lemma first_valid_after_gap i n v r :
  first_valid i (repeat None n ++ Some v :: r) = Some ((i + n)%nat, v).
Proof.
  revert i; induction n as [|n IH]; intros; simpl.
  - now rewrite Nat.add_0_r.
  - rewrite IH. now rewrite Nat.add_succ_r.
Qed.

(** Interpolation across a run of [n] missing rows that ends at a known
    value. *)
Lemma interpolate_from_gap a v1 v2 post : forall n i,
  interpolate_from (Some (a, v1)) i (repeat None n ++ Some v2 :: post)
  = map (fun j => Some (lerp a v1 (i + n) v2 j)) (seq i n)
    ++ Some v2 :: interpolate_from (Some ((i + n)%nat, v2)) (S (i + n)) post.
Proof.
  induction n as [|n IH]; intros i; simpl.
  - now rewrite Nat.add_0_r.
  - rewrite first_valid_after_gap, IH.
    replace (S i + n)%nat with (i + S n)%nat by lia. reflexivity.
Qed.

Lemma ffill_from_known_app k r : forall last,
  Forall known k ->
  exists last', ffill_from last (k ++ r) = k ++ ffill_from last' r.
Proof.
  induction k as [|[v|] k IH]; intros last H; simpl.
  - now exists last.
  - destruct (IH (Some v) (Forall_inv_tail H)) as (l' & ->). now exists l'.
  - apply Forall_inv in H. now elim H.
Qed.

Lemma bfill_known_app k r : Forall known k -> bfill (k ++ r) = k ++ bfill r.
Proof.
  induction 1 as [|[v|] k Hk Hs IH]; simpl.
  - reflexivity.
  - now rewrite IH.
  - now elim Hk.
Qed.

Lemma gap_block_known a v1 v2 i n :
  Forall known
    (Some v1 :: map (fun j => Some (lerp a v1 (i + n) v2 j)) (seq i n)
       ++ [Some v2]).
Proof.
  constructor; [discriminate|]. apply Forall_app. split.
  - apply Forall_forall. intros x Hx. apply in_map_iff in Hx.
    destruct Hx as (j & <- & _). discriminate.
  - constructor; [discriminate | constructor].
Qed.

(** The fill across a run of missing rows between two known values. *)
Lemma fill_gap pre v1 n v2 post :
  exists pre' post',
    List.length pre' = List.length pre /\
    fill (pre ++ Some v1 :: repeat None n ++ Some v2 :: post)
    = pre'
      ++ (Some v1
            :: map (fun j => Some (lerp (List.length pre) v1
                                        (S (List.length pre) + n) v2 j))
                   (seq (S (List.length pre)) n)
            ++ [Some v2])
      ++ post'.
Proof.
  set (a := List.length pre).
  set (blk := Some v1
                :: map (fun j => Some (lerp a v1 (S a + n) v2 j)) (seq (S a) n)
                ++ [Some v2]).
  assert (Hk : Forall known blk) by apply gap_block_known.
  destruct (SeriesFacts.interpolate_from_app pre
              (Some v1 :: repeat None n ++ Some v2 :: post) None 0)
    as (p1 & la & Hl1 & He).
  set (x := interpolate_from (Some ((S a + n)%nat, v2)) (S (S a + n)) post).
  assert (Hi : interpolate (pre ++ Some v1 :: repeat None n ++ Some v2 :: post)
               = p1 ++ blk ++ x).
  { unfold interpolate. rewrite He. cbn [interpolate_from Nat.add].
    fold a. rewrite interpolate_from_gap. unfold blk, x.
    cbn [app]. now rewrite <- app_assoc. }
  destruct (SeriesFacts.ffill_from_app p1 (blk ++ x) None)
    as (p2 & lb & Hl2 & Hf).
  destruct (ffill_from_known_app blk x lb Hk) as (lc & Hf2).
  destruct (SeriesFacts.bfill_app p2 (blk ++ ffill_from lc x))
    as (p3 & Hl3 & Hb).
  exists p3, (bfill (ffill_from lc x)).
  split; [exact (eq_trans Hl3 (eq_trans Hl2 Hl1))|].
  unfold fill, ffill. rewrite Hi, Hf, Hf2, Hb.
  now rewrite (bfill_known_app blk _ Hk).
Qed.

Lemma pos_diff (a b : nat) :
  (a <= b)%nat -> pos b - pos a == inject_Z (Z.of_nat (b - a)).
Proof.
  intros H. unfold pos, Qminus.
  rewrite <- inject_Z_opp, <- inject_Z_plus.
  replace (Z.of_nat b + - Z.of_nat a)%Z with (Z.of_nat (b - a)) by lia.
  reflexivity.
Qed.

(** The value at step [j] of [n] equal steps from [v1] to [v2]. *)
Lemma lerp_steps a v1 v2 n j :
  (0 < n)%nat ->
  lerp a v1 (a + n) v2 (a + j)
  == v1 + inject_Z (Z.of_nat j) / inject_Z (Z.of_nat n) * (v2 - v1).
Proof.
  intros Hn. unfold lerp.
  rewrite (pos_diff a (a + n)), (pos_diff a (a + j)) by lia.
  replace (a + n - a)%nat with n by lia.
  replace (a + j - a)%nat with j by lia.
  assert (Hd : ~ inject_Z (Z.of_nat n) == 0).
  { unfold Qeq, inject_Z. simpl. lia. }
  field. exact Hd.
Qed.

End GapFacts.

(** X4.  Where a country's series has [n] missing rows in a row between
    two known values [v1] and [v2], the cleaner fills the [j]-th of them
    (counted from 1) with [v1 + j/(n+1) * (v2 - v1)]: equal steps from
    one known value to the other, whatever the years of the rows. *)
Theorem X4_gap_filled_in_equal_steps csv c m pre v1 n v2 post j :
  Clean.series c m (Clean.prepare csv)
  = pre ++ Some v1 :: repeat None n ++ Some v2 :: post ->
  (j < n)%nat ->
  exists q,
    nth_error (Clean.series c m (Clean.load_data csv))
              (List.length pre + S j)
    = Some (Some q) /\
    q == v1 + inject_Z (Z.of_nat (S j)) / inject_Z (Z.of_nat (S n))
              * (v2 - v1).
Proof.
  intros H Hj. rewrite CleanFacts.load_data_series, H.
  destruct (GapFacts.fill_gap pre v1 n v2 post) as (p & q' & Hl & He).
  rewrite He, <- Hl.
  rewrite nth_error_app2 by lia.
  replace (List.length p + S j - List.length p)%nat with (S j) by lia.
  rewrite nth_error_app1
    by (cbn [List.length]; rewrite length_app, length_map, length_seq;
        cbn [List.length]; lia).
  cbn [nth_error]. rewrite nth_error_app1 by (rewrite length_map, length_seq; lia).
  rewrite nth_error_map, nth_error_seq.
  replace (j <? n)%nat with true by (symmetry; apply Nat.ltb_lt; exact Hj).
  cbn [option_map]. eexists. split; [reflexivity|].
  replace (S (List.length p) + n)%nat with (List.length p + S n)%nat by lia.
  replace (S (List.length p) + j)%nat with (List.length p + S j)%nat by lia.
  apply GapFacts.lerp_steps. lia.
Qed.

(** Four rows, the two in the middle missing: 10, 20, 30, 40. *)
Lemma X4_gap_filled_example :
  exists q,
    nth_error (Clean.series "A" co2 (Clean.load_data Sample.long_gap)) 2
    = Some (Some q) /\ q == 30.
Proof.
  destruct (X4_gap_filled_in_equal_steps
              Sample.long_gap "A" co2 [] 10 2 40 [] 1 eq_refl ltac:(lia))
    as (q & Hq & He).
  exists q. split; [exact Hq|]. rewrite He. reflexivity.
Defined.

Module RangeFacts.
Import Series.

Lemma first_valid_bounds s : forall i b vb,
  first_valid i s = Some (b, vb) -> (i <= b)%nat /\ In (Some vb) s.
Proof.
  induction s as [|[w|] s IH]; intros i b vb H; simpl in *.
  - discriminate.
  - injection H as <- <-. split; [lia | now left].
  - destruct (IH _ _ _ H) as [Hb Hin]. split; [lia | now right].
Qed.

Lemma convex lo hi va vb t :
  0 <= t -> t <= 1 -> lo <= va -> va <= hi -> lo <= vb -> vb <= hi ->
  lo <= va + t * (vb - va) /\ va + t * (vb - va) <= hi.
Proof.
  intros. split; nra.
Qed.

(** A value interpolated between two known values lies between them. *)
Lemma lerp_in_range lo hi a va b vb i :
  (a < i)%nat -> (i < b)%nat ->
  lo <= va -> va <= hi -> lo <= vb -> vb <= hi ->
  lo <= lerp a va b vb i /\ lerp a va b vb i <= hi.
Proof.
  intros Hai Hib H1 H2 H3 H4.
  assert (E : lerp a va b vb i
              == va + inject_Z (Z.of_nat (i - a)) / inject_Z (Z.of_nat (b - a))
                      * (vb - va)).
  { rewrite <- (GapFacts.lerp_steps a va vb (b - a) (i - a)) by lia.
    replace (a + (b - a))%nat with b by lia.
    replace (a + (i - a))%nat with i by lia. reflexivity. }
  rewrite E. apply convex; auto.
  - apply Qle_shift_div_l.
    + unfold Qlt, inject_Z. simpl. lia.
    + rewrite Qmult_0_l. unfold Qle, inject_Z. simpl. lia.
  - apply Qle_shift_div_r.
    + unfold Qlt, inject_Z. simpl. lia.
    + rewrite Qmult_1_l. unfold Qle, inject_Z. simpl. lia.
Qed.

Lemma interpolate_from_in_range lo hi s : forall last i,
  Forall (in_range lo hi) s ->
  match last with
  | Some (a, va) => (a < i)%nat /\ lo <= va /\ va <= hi
  | None => True
  end ->
  Forall (in_range lo hi) (interpolate_from last i s).
Proof.
  induction s as [|[w|] s IH]; intros last i Hs Hl; simpl.
  - constructor.
  - inversion Hs as [|? ? Hw Hs']; subst. constructor; [exact Hw|].
    apply IH; [exact Hs'|]. simpl in Hw. split; [lia | exact Hw].
  - inversion Hs as [|? ? _ Hs']; subst. constructor.
    + destruct last as [[a va]|]; [|exact I].
      destruct Hl as (Ha & Hlo & Hhi).
      destruct (first_valid (S i) s) as [[b vb]|] eqn:E.
      * destruct (first_valid_bounds _ _ _ _ E) as [Hb Hin].
        rewrite Forall_forall in Hs'. specialize (Hs' _ Hin).
        simpl in Hs'. destruct Hs'.
        simpl. apply lerp_in_range; auto; lia.
      * simpl. auto.
    + apply IH; [exact Hs'|].
      destruct last as [[a va]|]; [|exact I].
      destruct Hl as (Ha & Hlo & Hhi). repeat split; auto; lia.
Qed.

Lemma ffill_from_in_range lo hi s : forall last,
  Forall (in_range lo hi) s -> in_range lo hi last ->
  Forall (in_range lo hi) (ffill_from last s).
Proof.
  induction s as [|[w|] s IH]; intros last Hs Hl; simpl.
  - constructor.
  - inversion Hs; subst. constructor; auto.
  - inversion Hs; subst. constructor; auto.
Qed.

Lemma bfill_in_range lo hi s :
  Forall (in_range lo hi) s -> Forall (in_range lo hi) (bfill s).
Proof.
  induction 1 as [|[w|] s Hw Hs IH]; simpl.
  - constructor.
  - constructor; auto.
  - constructor; [|exact IH].
    destruct (bfill s) as [|x r]; [exact I | now inversion IH].
Qed.

Lemma fill_in_range lo hi s :
  Forall (in_range lo hi) s -> Forall (in_range lo hi) (fill s).
Proof.
  intros H. unfold fill, ffill, interpolate.
  apply bfill_in_range, ffill_from_in_range; [|exact I].
  now apply interpolate_from_in_range.
Qed.

End RangeFacts.

(** X5.  Cleaning creates no new extreme: if every known value of a
    country's series lies between [lo] and [hi], so does every value of
    the cleaned series; the fill never extrapolates. *)
Theorem X5_cleaning_stays_within_known_bounds csv c m lo hi :
  (forall v, In (Some v) (Clean.series c m (Clean.prepare csv)) ->
             lo <= v /\ v <= hi) ->
  forall v, In (Some v) (Clean.series c m (Clean.load_data csv)) ->
            lo <= v /\ v <= hi.
Proof.
  intros H v Hv. rewrite CleanFacts.load_data_series in Hv.
  assert (Hr : Forall (in_range lo hi)
                      (Series.fill (Clean.series c m (Clean.prepare csv)))).
  { apply RangeFacts.fill_in_range. apply Forall_forall.
    intros [x|] Hx; simpl; auto. }
  rewrite Forall_forall in Hr. exact (Hr _ Hv).
Qed.

Lemma X5_cleaning_stays_within_example :
  exists v,
    nth_error (Clean.series "A" co2 (Clean.load_data Sample.long_gap)) 1
    = Some (Some v) /\
    10 <= v /\ v <= 40.
Proof.
  eexists. split; [reflexivity|].
  apply (X5_cleaning_stays_within_known_bounds Sample.long_gap "A" co2 10 40).
  - intros v Hv. vm_compute in Hv.
    destruct Hv as [[= <-]|[[=]|[[=]|[[= <-]|[]]]]]; split; discriminate.
  - right. left. reflexivity.
Defined.


(** ** More on the cleaner *)

Section Stable.
Context {A : Type} (leb : A -> A -> bool) (p : A -> bool).

Lemma insert_filter_out x l :
  p x = false -> filter p (insert leb x l) = filter p l.
Proof.
  intros Hx. induction l as [|y l IH]; simpl.
  - now rewrite Hx.
  - destruct (leb x y); simpl.
    + now rewrite Hx.
    + now rewrite IH.
Qed.

Hypothesis leb_within : forall x y, p x = true -> p y = true -> leb x y = true.

Lemma insert_filter_in x l :
  p x = true -> filter p (insert leb x l) = x :: filter p l.
Proof.
  intros Hx. induction l as [|y l IH]; simpl.
  - now rewrite Hx.
  - destruct (leb x y) eqn:E; simpl.
    + now rewrite Hx.
    + destruct (p y) eqn:Hy.
      * rewrite (leb_within x y Hx Hy) in E. discriminate.
      * exact IH.
Qed.

(** Insertion sort keeps elements that the order does not separate in
    the order they came in. *)
Lemma isort_stable l : filter p (isort leb l) = filter p l.
Proof.
  induction l as [|x l IH]; simpl; [reflexivity|].
  destruct (p x) eqn:Hx.
  - rewrite insert_filter_in by exact Hx. now rewrite IH.
  - rewrite insert_filter_out by exact Hx. exact IH.
Qed.

End Stable.

Module CleanMore.
Import Clean.

Lemma same_key_leb {V} k (r1 r2 : row V) :
  same_key k r1 = true -> same_key k r2 = true -> key_leb r1 r2 = true.
Proof.
  unfold same_key, key_leb. rewrite !andb_true_iff, !label_eqb_eq, !Z.eqb_eq.
  intros [<- <-] [E <-]. rewrite <- E.
  destruct (fst k) as [a|].
  - rewrite string_compare_refl. apply Z.leb_refl.
  - apply Z.leb_refl.
Qed.

Lemma transform_from_same_key f k whole seen rest :
  map idx (filter (same_key k) (transform_from f whole seen rest))
  = map idx (filter (same_key k) rest).
Proof.
  revert seen; induction rest as [|r rest IH]; intros seen;
    cbn [transform_from filter].
  - reflexivity.
  - change (same_key k (set_vals r _)) with (same_key k r).
    destruct (same_key k r); cbn [map]; now rewrite IH.
Qed.

Lemma transform_from_In f whole seen rest r :
  In r (transform_from f whole seen rest) ->
  exists r0 (s : list (row (option Q))),
    In r0 rest /\ ident r = ident r0 /\
    forall m, val r m =
              match country r0 with
              | None => None
              | Some c => nth (List.length (group c s)) (f (series c m whole))
                              None
              end.
Proof.
  revert seen; induction rest as [|r0 rest IH]; intros seen H;
    cbn [transform_from] in H.
  - contradiction.
  - destruct H as [<-|H].
    + exists r0, seen. repeat split. now left.
    + destruct (IH _ H) as (r1 & s & Hin & Hid & Hv).
      exists r1, s. repeat split; auto. now right.
Qed.

Lemma no_country_no_value csv r m :
  In r (load_data csv) -> country r = None -> val r m = None.
Proof.
  intros Hr Hc.
  apply transform_from_In in Hr.
  destruct Hr as (r0 & s & _ & Hid & Hv).
  rewrite Hv. unfold ident in Hid.
  assert (E : country r = country r0) by congruence.
  rewrite <- E, Hc. reflexivity.
Qed.



End CleanMore.

(** X6.  The sort is stable: rows of the file that share country and
    year appear in the cleaned table in the order the file has them. *)
Theorem X6_equal_keys_keep_file_order csv k :
  map idx (filter (same_key k) (Clean.load_data csv))
  = map idx (filter (same_key k) (filter Clean.iso_len3 csv)).
Proof.
  unfold Clean.load_data, Clean.transform.
  rewrite CleanMore.transform_from_same_key.
  unfold Clean.prepare, Clean.sort_values.
  rewrite (isort_stable Clean.key_leb (same_key k))
    by apply CleanMore.same_key_leb.
  rewrite filter_map_swap, map_map. reflexivity.
Qed.

(** X7.  A row that has a country code but no country name belongs to
    no group, so the write-back leaves it with all nine measures
    missing, also those the file gave. *)
Theorem X7_row_without_country_loses_measures csv r m :
  In r (Clean.load_data csv) -> country r = None -> val r m = None.
Proof.
  apply CleanMore.no_country_no_value.
Qed.

Lemma X7_row_without_country_example :
  exists r,
    In r (Clean.load_data Sample.nameless) /\ idx r = 0%nat /\
    val r co2 = None.
Proof.
  set (r := nth 3 (Clean.load_data Sample.nameless)
                (Row 9 None None 0%Z (fun _ => None))).
  assert (Hr : In r (Clean.load_data Sample.nameless)).
  { vm_compute. right. right. right. left. reflexivity. }
  exists r. split; [exact Hr|]. split; [reflexivity|].
  apply (X7_row_without_country_loses_measures Sample.nameless r co2 Hr).
  reflexivity.
Defined.




(** ** The latest year and the start of the script *)

Module ScriptFacts.

Lemma fold_max_spec ys : forall y0,
  (y0 <= fold_left Z.max ys y0)%Z /\
  (forall y, In y ys -> (y <= fold_left Z.max ys y0)%Z) /\
  In (fold_left Z.max ys y0) (y0 :: ys).
Proof.
  induction ys as [|y1 ys IH]; intros y0; cbn [fold_left].
  - repeat split; [lia | contradiction | now left].
  - destruct (IH (Z.max y0 y1)) as (H1 & H2 & H3). repeat split.
    + lia.
    + intros y [<-|Hy]; [lia | now apply H2].
    + destruct H3 as [H3|H3]; [|now right; right].
      rewrite <- H3. destruct (Z.max_spec y0 y1) as [[_ ->]|[_ ->]];
        [right; now left | now left].
Qed.

Lemma load_data_nil csv :
  filter Clean.iso_len3 csv = [] -> Clean.load_data csv = [].
Proof.
  intros H. unfold Clean.load_data, Clean.prepare. now rewrite H.
Qed.

Lemma selected_In name viz : selected name viz = true <-> In name viz.
Proof.
  unfold selected. rewrite existsb_exists. split.
  - intros (x & Hx & E). apply String.eqb_eq in E. now subst.
  - intros H. exists name. split; [exact H | apply String.eqb_refl].
Qed.

Lemma selected_same name viz viz' :
  (In name viz <-> In name viz') -> selected name viz = selected name viz'.
Proof.
  intros H. destruct (selected name viz') eqn:E.
  - apply selected_In, H, selected_In, E.
  - destruct (selected name viz) eqn:E'; [|reflexivity].
    apply selected_In, H, selected_In in E'. congruence.
Qed.


End ScriptFacts.

(** X9.  The latest year: for an empty table there is none; otherwise it
    is the year of some row of the table and no row has a later one. *)
Theorem X9_latest_is_the_maximum_year t :
  (t = [] -> year_max t = None) /\
  (t <> [] ->
   exists y, year_max t = Some y /\
             (exists r, In r t /\ year r = y) /\
             forall r, In r t -> (year r <= y)%Z).
Proof.
  split.
  - intros ->. reflexivity.
  - intros Hne. destruct t as [|r0 t]; [now elim Hne|].
    unfold year_max. cbn [map].
    destruct (ScriptFacts.fold_max_spec (map year t) (year r0))
      as (H1 & H2 & H3).
    eexists. split; [reflexivity|]. split.
    + change (year r0 :: map year t) with (map year (r0 :: t)) in H3.
      apply in_map_iff in H3. destruct H3 as (r & Hy & Hr). now exists r.
    + intros r [<-|Hr]; [exact H1|]. apply H2. now apply in_map.
Qed.

(** X11.  Which panels a render pass runs depends on which of the four
    panel names the list of visualisations holds and on nothing else:
    order, repetition and other names make no difference. *)
Theorem X11_render_reads_viz_as_a_set df latest viz viz' selection :
  (forall x, In x viz_options -> (In x viz <-> In x viz')) ->
  render df latest viz selection = render df latest viz' selection.
Proof.
  intros H. unfold render.
  rewrite !(ScriptFacts.selected_same _ viz viz');
    [reflexivity | | | |]; apply H; simpl; tauto.
Qed.

Lemma X11_render_reads_viz_example :
  render 0%nat 2000%Z
         ["Bubble Map"; "nothing"; "Bar-Chart Race"; "Bubble Map"]%string []
  = render 0%nat 2000%Z ["Bar-Chart Race"; "Bubble Map"]%string [].
Proof.
  apply X11_render_reads_viz_as_a_set.
  intros x Hx. simpl in Hx. simpl.
  destruct Hx as [<-|[<-|[<-|[<-|[]]]]]; split; intros H;
    repeat (destruct H as [H|H]; try discriminate H); auto.
Defined.

(** ** More on the bar-chart race *)

Lemma StronglySorted_firstn {A} (R : A -> A -> Prop) l :
  StronglySorted R l -> forall n, StronglySorted R (firstn n l).
Proof.
  induction 1 as [|x l Hs IH Hf]; intros [|n]; simpl; try constructor.
  - apply IH.
  - rewrite Forall_forall in *. intros y Hy. apply Hf.
    eapply In_firstn; eauto.
Qed.

(** Chunks laid end to end in the order of their keys are in the order
    of their keys. *)
Lemma flat_map_sorted {A} (g : Z -> list A) (key : A -> Z) ys :
  (forall y e, In e (g y) -> key e = y) ->
  StronglySorted Z.le ys ->
  StronglySorted (fun a b => (key a <= key b)%Z) (flat_map g ys).
Proof.
  intros Hg. induction 1 as [|y ys Hs IH Hf]; cbn [flat_map].
  - constructor.
  - assert (Hall : forall a b, In a (g y) -> In b (flat_map g ys) ->
                               (key a <= key b)%Z).
    { intros a b Ha Hb. apply in_flat_map in Hb.
      destruct Hb as (y' & Hy' & Hb).
      rewrite (Hg _ _ Ha), (Hg _ _ Hb).
      rewrite Forall_forall in Hf. now apply Hf. }
    assert (Hchunk : forall l, incl l (g y) ->
              StronglySorted (fun a b => (key a <= key b)%Z)
                             (l ++ flat_map g ys)).
    { induction l as [|a l IHl]; intros Hl; cbn [app]; [exact IH|].
      constructor.
      - apply IHl. intros z Hz. apply Hl. now right.
      - apply Forall_forall. intros b Hb. apply in_app_or in Hb.
        destruct Hb as [Hb|Hb].
        + rewrite (Hg y a), (Hg y b); [lia | |]; apply Hl;
            [now right | now left].
        + apply Hall; [apply Hl; now left | exact Hb]. }
    apply Hchunk, incl_refl.
Qed.

Module BarRaceMore.
Import BarRace.

Lemma sum_cells_from l : forall acc,
  (forall x, In x l -> x = None) ->
  fold_left (fun acc c => match c with Some v => acc + v | None => acc end)
            l acc = acc.
Proof.
  induction l as [|x l IH]; intros acc H; cbn [fold_left]; [reflexivity|].
  rewrite (H x) by now left. apply IH. intros y Hy. apply H. now right.
Qed.

Lemma annual_In t e :
  In e (annual t) <-> exists k, In k (group_keys t) /\ e = total_of t k.
Proof.
  unfold annual. rewrite in_map_iff. split; intros (k & H1 & H2);
    exists k; auto.
Qed.

Lemma in_key_spec k r :
  in_key k r = true <-> year r = fst k /\ country r = Some (snd k).
Proof.
  unfold in_key. now rewrite andb_true_iff, Z.eqb_eq,
                             CleanFacts.in_group_country.
Qed.

Lemma zleb_total x y : (x <=? y)%Z = true \/ (y <=? x)%Z = true.
Proof.
  destruct (Z.le_ge_cases x y) as [H|H]; apply Z.leb_le in H; auto.
Qed.

Lemma zleb_trans x y z :
  (x <=? y)%Z = true -> (y <=? z)%Z = true -> (x <=? z)%Z = true.
Proof.
  rewrite !Z.leb_le. lia.
Qed.

Lemma years_sorted a : StronglySorted Z.le (years a).
Proof.
  unfold years.
  apply StronglySorted_weaken with (R := fun x y => (x <=? y)%Z = true).
  - intros x y _ _. apply Z.leb_le.
  - apply isort_strongly_sorted; [apply zleb_total | apply zleb_trans].
Qed.

End BarRaceMore.

(** X12.  The table behind the bar-chart race runs through the years in
    ascending order, and inside each year through its entries from the
    largest [co2] to the smallest. *)
Theorem X12_bar_race_order t :
  StronglySorted (fun a b => (a_year a <= a_year b)%Z)
                 (BarRace.top10_each t) /\
  forall y, StronglySorted (fun a b => a_co2 b <= a_co2 a)
                           (BarRace.frame_of y t).
Proof.
  split.
  - unfold BarRace.top10_each.
    apply flat_map_sorted; [|apply BarRaceMore.years_sorted].
    intros y e He. apply BarRaceFacts.nlargest_in in He.
    now apply BarRaceFacts.of_year_year in He.
  - intros y. rewrite BarRaceFacts.frame_of_nlargest.
    unfold BarRace.nlargest. apply StronglySorted_firstn.
    apply StronglySorted_weaken
      with (R := fun a b => BarRace.co2_geb a b = true).
    + intros a b _ _. apply Qle_bool_iff.
    + apply isort_strongly_sorted;
        [apply BarRaceFacts.co2_geb_total | apply BarRaceFacts.co2_geb_trans].
Qed.

(** X13.  A country whose [co2] is missing in every row of a year is not
    left out of that year: the sum over nothing but missing values is 0,
    and the country is carried with a total of 0. *)
Theorem X13_missing_co2_sums_to_zero t y c :
  (exists r, In r t /\ year r = y /\ country r = Some c) ->
  (forall r, In r t -> year r = y -> country r = Some c ->
             val r co2 = None) ->
  In (Annual y c 0) (BarRace.annual t).
Proof.
  intros Hex Hnone. apply BarRaceMore.annual_In. exists (y, c). split.
  - now apply BarRaceFacts.group_keys_In.
  - unfold BarRace.total_of, BarRace.sum_cells. cbn [fst snd].
    rewrite BarRaceMore.sum_cells_from; [reflexivity|].
    intros x Hx. apply in_map_iff in Hx. destruct Hx as (r & <- & Hr).
    apply filter_In in Hr. destruct Hr as [Hr Hk].
    apply BarRaceMore.in_key_spec in Hk. cbn [fst snd] in Hk.
    now apply Hnone.
Qed.

Lemma X13_missing_co2_example :
  In (Annual 2000 "A" 0) (BarRace.annual (Clean.load_data Sample.silent)).
Proof.
  apply (X13_missing_co2_sums_to_zero
           (Clean.load_data Sample.silent) 2000 "A").
  - exists (hd (Row 9 None None 0%Z (fun _ => None))
               (Clean.load_data Sample.silent)).
    split; [vm_compute; left; reflexivity | split; reflexivity].
  - intros r Hr _ _. vm_compute in Hr.
    destruct Hr as [<-|[<-|[]]]; reflexivity.
Defined.

(** X14.  The x-axis of the race is long enough for every bar: the upper
    end of its range is 1.05 times the largest value of the whole table,
    and when that value is not negative no bar of any frame is longer. *)
Theorem X14_bar_race_range_covers_bars t e :
  In e (BarRace.top10_each t) ->
  exists M,
    BarRace.range_hi (BarRace.top10_each t) = Fin (M * (105 # 100)) /\
    a_co2 e <= M /\
    (exists e', In e' (BarRace.top10_each t) /\ a_co2 e' = M) /\
    (0 <= M -> a_co2 e <= M * (105 # 100)).
Proof.
  intros He.
  set (col := map (fun r => Fin (a_co2 r)) (BarRace.top10_each t)).
  assert (Hfin : Forall F.finite col).
  { apply Forall_forall. intros x Hx. apply in_map_iff in Hx.
    destruct Hx as (r & <- & _). exact I. }
  assert (Hne : col <> []).
  { unfold col. destruct (BarRace.top10_each t);
      [contradiction | discriminate]. }
  destruct (FFacts.max_fin col Hne Hfin) as (M & HM & Hin & Hall).
  assert (HeM : a_co2 e <= M).
  { apply Hall. unfold col.
    apply (in_map (fun r => Fin (a_co2 r))). exact He. }
  exists M. repeat split.
  - unfold BarRace.range_hi. fold col. now rewrite HM.
  - exact HeM.
  - unfold col in Hin. apply in_map_iff in Hin.
    destruct Hin as (e' & [= E] & He'). now exists e'.
  - intros H0. lra.
Qed.

Lemma X14_bar_race_range_example :
  exists M,
    BarRace.range_hi
      (BarRace.top10_each (Clean.load_data Sample.two_countries))
    = Fin (M * (105 # 100)) /\
    a_co2 (hd (Annual 0 "" 0)
              (BarRace.top10_each (Clean.load_data Sample.two_countries)))
    <= M * (105 # 100).
Proof.
  set (t := Clean.load_data Sample.two_countries).
  set (e := hd (Annual 0 "" 0) (BarRace.top10_each t)).
  assert (He : In e (BarRace.top10_each t)).
  { vm_compute. left. reflexivity. }
  destruct (X14_bar_race_range_covers_bars t e He) as (M & Hr & Hle & _ & H0).
  exists M. split; [exact Hr|]. apply H0.
  apply Qle_trans with (y := a_co2 e); [|exact Hle].
  vm_compute. discriminate.
Defined.

(** ** More on the bubble map and the radar *)

Module FMore.

Lemma max2_one_of x y : F.max2 x y = x \/ F.max2 x y = y.
Proof.
  destruct x as [a| | |], y as [b| | |]; simpl; auto.
  destruct (Qle_bool a b); auto.
Qed.

Lemma fold_max2_one_of l : forall acc,
  fold_left F.max2 l acc = acc \/ In (fold_left F.max2 l acc) l.
Proof.
  induction l as [|x l IH]; intros acc; cbn [fold_left]; [now left|].
  destruct (IH (F.max2 acc x)) as [H|H]; [|right; now right].
  rewrite H. destruct (max2_one_of acc x) as [-> | ->];
    [now left | right; now left].
Qed.

(** A maximum that is a number is the value of some entry. *)
Lemma max_attained l M : F.max l = Fin M -> In (Fin M) l.
Proof.
  unfold F.max. intros H.
  destruct (fold_max2_one_of l NaN) as [E|E]; rewrite H in E;
    [discriminate | exact E].
Qed.

Lemma div_self M : 0 < M -> F.div (Fin M) (Fin M) = Fin (M / M) /\ M / M == 1.
Proof.
  intros H. pose proof (FFacts.positive_nonzero M H) as Hn. split.
  - now apply FFacts.div_fin.
  - now field.
Qed.

End FMore.

(** X15.  Bubble sizes follow the emissions: when the largest [co2] of
    the bubble-map table is positive, a row with no more [co2] than
    another gets a bubble no larger. *)
Theorem X15_bubble_size_monotone t r1 r2 q1 q2 M :
  val r1 co2 = Some q1 -> val r2 co2 = Some q2 ->
  BubbleMap.co2_max (BubbleMap.df_map t) = Fin M -> 0 < M ->
  q1 <= q2 ->
  exists b1 b2,
    BubbleMap.bubble_size (BubbleMap.df_map t) r1 = Fin b1 /\
    BubbleMap.bubble_size (BubbleMap.df_map t) r2 = Fin b2 /\
    b1 <= b2.
Proof.
  intros H1 H2 HM Hpos Hle.
  pose proof (FFacts.positive_nonzero M Hpos) as Hn.
  exists (q1 / M * 60 + 5), (q2 / M * 60 + 5).
  unfold BubbleMap.bubble_size. rewrite HM, H1, H2. cbn [F.of_cell].
  rewrite !FFacts.div_fin by exact Hn. repeat split.
  assert (Hi : 0 <= / M) by (apply Qinv_le_0_compat; lra).
  unfold Qdiv.
  assert (Hq : q1 * / M <= q2 * / M) by (apply Qmult_le_compat_r; auto).
  lra.
Qed.

Lemma X15_bubble_size_monotone_example :
  exists b1 b2,
    BubbleMap.bubble_size
      (BubbleMap.df_map (Clean.load_data Sample.two_countries))
      (nth 0 (Clean.load_data Sample.two_countries)
           (Row 9 None None 0%Z (fun _ => None))) = Fin b1 /\
    BubbleMap.bubble_size
      (BubbleMap.df_map (Clean.load_data Sample.two_countries))
      (nth 1 (Clean.load_data Sample.two_countries)
           (Row 9 None None 0%Z (fun _ => None))) = Fin b2 /\
    b1 <= b2.
Proof.
  apply (X15_bubble_size_monotone
           (Clean.load_data Sample.two_countries) _ _ 4 8 8);
    try reflexivity; discriminate.
Defined.

(** X16.  When the largest [co2] of the bubble-map table is positive,
    some row holds it, and that row gets the largest bubble, of size 65. *)
Theorem X16_largest_emitter_gets_65 t M :
  BubbleMap.co2_max (BubbleMap.df_map t) = Fin M -> 0 < M ->
  exists r b,
    In r (BubbleMap.df_map t) /\ val r co2 = Some M /\
    BubbleMap.bubble_size (BubbleMap.df_map t) r = Fin b /\ b == 65.
Proof.
  intros HM Hpos.
  pose proof (FMore.max_attained _ _ HM) as Hin.
  apply in_map_iff in Hin. destruct Hin as (r & Hv & Hr).
  destruct (val r co2) as [q|] eqn:Eq; [|discriminate].
  simpl in Hv. injection Hv as ->.
  destruct (FMore.div_self M Hpos) as [Hd H1].
  exists r, (M / M * 60 + 5). repeat split; auto.
  - unfold BubbleMap.bubble_size. rewrite HM, Eq. cbn [F.of_cell].
    now rewrite Hd.
  - rewrite H1. reflexivity.
Qed.

Lemma X16_largest_emitter_example :
  exists r b,
    In r (BubbleMap.df_map (Clean.load_data Sample.two_countries)) /\
    val r co2 = Some 8 /\
    BubbleMap.bubble_size
      (BubbleMap.df_map (Clean.load_data Sample.two_countries)) r = Fin b /\
    b == 65.
Proof.
  apply (X16_largest_emitter_gets_65
           (Clean.load_data Sample.two_countries) 8); reflexivity.
Defined.

Lemma unique_NoDup (l : list (option string)) : NoDup (unique l).
Proof.
  induction l as [|x l IH]; cbn [unique]; constructor.
  - intros H. apply filter_In in H. destruct H as [_ H].
    assert (E : label_eqb x x = true) by now apply label_eqb_eq.
    rewrite E in H. discriminate.
  - now apply NoDup_filter.
Qed.

(** X17.  The options of the radar's country picker are the countries of
    the latest-year table, each listed once. *)
Theorem X17_radar_options_are_the_countries t latest :
  NoDup (Radar.options (Radar.df_radar t latest)) /\
  forall c, In c (Radar.options (Radar.df_radar t latest)) <->
            exists r, In r t /\ year r = latest /\ country r = c /\
                      forall m, In m [co2; co2_per_capita; gdp; population] ->
                                known (val r m).
Proof.
  split; [apply unique_NoDup|].
  intros c. unfold Radar.options. rewrite unique_In, in_map_iff.
  rewrite RadarFacts.df_radar_rows. split.
  - intros (x & <- & Hx). apply in_map_iff in Hx.
    destruct Hx as (r & <- & Hr). apply RadarFacts.base_In in Hr.
    exists r. tauto.
  - intros (r & Hr & Hy & Hc & Hk).
    exists (r, Radar.gdp_per_capita r). split; [exact Hc|].
    apply in_map_iff. exists r. split; [reflexivity|].
    apply RadarFacts.base_In. tauto.
Qed.

(** X18.  When a metric has a positive maximum over the latest-year
    table, some row holds that maximum and its normalised value for the
    metric is 1. *)
Theorem X18_radar_maximum_normalises_to_one t latest m M :
  Radar.norm (Radar.df_radar t latest) m = Fin M -> 0 < M ->
  exists x q,
    In x (Radar.df_radar t latest) /\
    Radar.metric_value m x = Fin M /\
    snd (Radar.norm_row (Radar.df_radar t latest) x) m = Fin q /\ q == 1.
Proof.
  intros HM Hpos.
  pose proof (FMore.max_attained _ _ HM) as Hin.
  apply in_map_iff in Hin. destruct Hin as (x & Hv & Hx).
  destruct (FMore.div_self M Hpos) as [Hd H1].
  exists x, (M / M). repeat split; auto.
  unfold Radar.norm_row. cbn [snd]. now rewrite Hv, HM.
Qed.

Lemma X18_radar_maximum_example :
  exists x q,
    In x (Radar.df_radar (Clean.load_data Sample.two_countries) 2000) /\
    Radar.metric_value Radar.m_gdp_per_capita x = Fin (6 # 2) /\
    snd (Radar.norm_row
           (Radar.df_radar (Clean.load_data Sample.two_countries) 2000) x)
        Radar.m_gdp_per_capita = Fin q /\ q == 1.
Proof.
  apply (X18_radar_maximum_normalises_to_one
           (Clean.load_data Sample.two_countries) 2000
           Radar.m_gdp_per_capita (6 # 2)); reflexivity.
Defined.


(** ** Running the panels *)

Module RunMore.


Lemma bind_raise {A B} (m : M A) (k : A -> M B) w e w' :
  m w = (inl e, w') -> bind m k w = (inl e, w').
Proof. intros H. unfold bind. now rewrite H. Qed.

Lemma bind_melted_rows {B} l (k : list melt_row -> M B) w rows :
  nth_error (store w) l = Some (Melted rows) ->
  bind (melted_rows l) k w = k rows w.
Proof. intros H. unfold bind, melted_rows. now rewrite H. Qed.

Lemma bind_set_source {B} l f (k : unit -> M B) w rows :
  nth_error (store w) l = Some (Melted rows) ->
  bind (set_source l f) k w
  = k tt (World (upd l (Melted (map (fun r => Melt (m_country r)
                                                   (f (m_source r))
                                                   (m_emissions r)) rows))
                     (store w))
                (page w)).
Proof. intros H. unfold bind, set_source. now rewrite H. Qed.


(** The bubble map panel up to the call of [px.scatter_geo]. *)
Lemma bubble_map_panel_prefix w df latest t cols :
  nth_error (store w) df = Some (Frame t cols) ->
  bubble_map_panel df latest w
  = bind (scatter_geo (BubbleMap.df_map t)
                      (BubbleMap.bubble_sizes (BubbleMap.df_map t)) latest)
         (fun fig2 => emit (PlotlyChart fig2))
         (World (store w
                   ++ [Frame (BubbleMap.df_map t)
                             [("bubble_size"%string,
                               BubbleMap.bubble_sizes (BubbleMap.df_map t))]])
                (page w ++ [Subheader bubble_map_heading])).
Proof.
  intros H. unfold bubble_map_panel.
  rewrite RunFacts.bind_emit.
  erewrite RunFacts.bind_frame_rows by (cbn [store]; exact H).
  rewrite RunFacts.bind_alloc. cbn [store page].
  erewrite RunFacts.bind_frame_rows
    by (cbn [store]; apply StoreFacts.nth_error_last).
  erewrite RunFacts.bind_set_column
    by (cbn [store]; apply StoreFacts.nth_error_last).
  cbn [store page filter]. rewrite StoreFacts.upd_last.
  erewrite RunFacts.bind_frame_rows
    by (cbn [store]; apply StoreFacts.nth_error_last).
  erewrite RunFacts.bind_frame_column
    by (cbn [store];
        first [apply StoreFacts.nth_error_last | reflexivity]).
  reflexivity.
Qed.

Lemma bubble_map_panel_run w df latest t cols :
  nth_error (store w) df = Some (Frame t cols) ->
  forallb valid_size (BubbleMap.bubble_sizes (BubbleMap.df_map t)) = true ->
  bubble_map_panel df latest w
  = (inr tt,
     World (store w
              ++ [Frame (BubbleMap.df_map t)
                        [("bubble_size"%string,
                          BubbleMap.bubble_sizes (BubbleMap.df_map t))]])
           (page w ++ [Subheader bubble_map_heading;
                       PlotlyChart
                         (ScatterGeoFig
                            (BubbleMap.df_map t)
                            (BubbleMap.bubble_sizes (BubbleMap.df_map t))
                            latest)])).
Proof.
  intros H Hv. rewrite (bubble_map_panel_prefix w df latest t cols H).
  unfold bind, scatter_geo. rewrite Hv.
  unfold ret, emit; cbn [store page]. now rewrite <- app_assoc.
Qed.

Lemma bubble_map_panel_raises w df latest t cols :
  nth_error (store w) df = Some (Frame t cols) ->
  forallb valid_size (BubbleMap.bubble_sizes (BubbleMap.df_map t)) = false ->
  bubble_map_panel df latest w
  = (inl ValueError,
     World (store w
              ++ [Frame (BubbleMap.df_map t)
                        [("bubble_size"%string,
                          BubbleMap.bubble_sizes (BubbleMap.df_map t))]])
           (page w ++ [Subheader bubble_map_heading])).
Proof.
  intros H Hv. rewrite (bubble_map_panel_prefix w df latest t cols H).
  unfold bind, scatter_geo. now rewrite Hv.
Qed.

(** With a positive maximum and no negative [co2] every size is valid. *)
Lemma sizes_valid t M :
  BubbleMap.co2_max (BubbleMap.df_map t) = Fin M -> 0 < M ->
  (forall r q, In r (BubbleMap.df_map t) -> val r co2 = Some q -> 0 <= q) ->
  forallb valid_size (BubbleMap.bubble_sizes (BubbleMap.df_map t)) = true.
Proof.
  intros HM Hpos Hnn. apply forallb_forall. intros x Hx.
  unfold BubbleMap.bubble_sizes in Hx. apply in_map_iff in Hx.
  destruct Hx as (r & <- & Hr).
  destruct (BubbleFacts.df_map_co2_known t r Hr) as (q & Hq).
  pose proof (Hnn r q Hr Hq) as H0.
  pose proof (BubbleFacts.co2_below_max t r q M Hr Hq HM) as HqM.
  destruct (FFacts.ratio_in_unit q M H0 HqM Hpos) as [Hlo _].
  unfold BubbleMap.bubble_size. rewrite HM, Hq. cbn [F.of_cell].
  rewrite FFacts.div_fin by now apply FFacts.positive_nonzero.
  cbn [F.mul F.add valid_size]. apply Qle_bool_iff. lra.
Qed.

(** With a maximum of 0 no size is valid. *)
Lemma sizes_invalid t M :
  BubbleMap.df_map t <> [] ->
  BubbleMap.co2_max (BubbleMap.df_map t) = Fin M -> M == 0 ->
  forallb valid_size (BubbleMap.bubble_sizes (BubbleMap.df_map t)) = false.
Proof.
  intros Hne HM H0.
  assert (Hex : exists r, In r (BubbleMap.df_map t)).
  { destruct (BubbleMap.df_map t) as [|r d]; [now elim Hne|].
    exists r. now left. }
  destruct Hex as (r & Hr).
  destruct (BubbleFacts.df_map_co2_known t r Hr) as (q & Hq).
  pose proof (BubbleFacts.co2_below_max t r q M Hr Hq HM) as HqM.
  apply not_true_is_false. intros Hall.
  rewrite forallb_forall in Hall.
  specialize (Hall (BubbleMap.bubble_size (BubbleMap.df_map t) r)
                   (in_map _ _ _ Hr)).
  unfold BubbleMap.bubble_size in Hall. rewrite HM, Hq in Hall.
  cbn [F.of_cell F.div] in Hall.
  rewrite (FFacts.checked_div_zero q M H0) in Hall.
  destruct (q ?= 0) eqn:Ec; try discriminate Hall.
  apply Qgt_alt in Ec. rewrite H0 in HqM.
  exact (Qle_not_lt _ _ HqM Ec).
Qed.

Lemma sunburst_panel_run w df latest t cols :
  nth_error (store w) df = Some (Frame t cols) ->
  sunburst_panel df latest w
  = (inr tt,
     World (store w
              ++ [Melted (map relabel_row
                              (Sunburst.melt (Sunburst.df5 t latest)))])
           (page w ++ [Subheader sunburst_heading;
                       PlotlyChart
                         (SunburstFig
                            (map relabel_row
                                 (Sunburst.melt (Sunburst.df5 t latest)))
                            latest)])).
Proof.
  intros H. unfold sunburst_panel.
  rewrite RunFacts.bind_emit.
  erewrite RunFacts.bind_frame_rows by (cbn [store]; exact H).
  rewrite RunFacts.bind_alloc. cbn [store page].
  erewrite bind_set_source by (cbn [store]; apply StoreFacts.nth_error_last).
  cbn [store page]. rewrite StoreFacts.upd_last.
  erewrite bind_melted_rows by (cbn [store]; apply StoreFacts.nth_error_last).
  unfold emit; cbn [store page]. now rewrite <- app_assoc.
Qed.

(** The radar panel up to its country picker. *)
Lemma radar_panel_prefix w df latest selection t cols :
  nth_error (store w) df = Some (Frame t cols) ->
  radar_panel df latest selection w
  = bind (multiselect (Radar.options (Radar.df_radar t latest))
                      radar_default selection)
         (fun choices =>
            match choices with
            | _ :: _ =>
                match Radar.df_norm choices (Radar.df_radar t latest) with
                | Some df_norm =>
                    emit (PlotlyChart (LinePolarFig (Radar.melt df_norm)
                                                    latest))
                | None => throw KeyError
                end
            | [] => emit (Info radar_info)
            end)
         (World (store w
                   ++ [Frame (Radar.base t latest)
                             [("gdp_per_capita"%string,
                               map Radar.gdp_per_capita
                                   (Radar.base t latest))]])
                (page w ++ [Subheader radar_heading])).
Proof.
  intros H. unfold radar_panel.
  rewrite RunFacts.bind_emit.
  erewrite RunFacts.bind_frame_rows by (cbn [store]; exact H).
  rewrite RunFacts.bind_alloc. cbn [store page].
  erewrite RunFacts.bind_frame_rows
    by (cbn [store]; apply StoreFacts.nth_error_last).
  erewrite RunFacts.bind_set_column
    by (cbn [store]; apply StoreFacts.nth_error_last).
  cbn [store page filter]. rewrite StoreFacts.upd_last.
  erewrite RunFacts.bind_frame_rows
    by (cbn [store]; apply StoreFacts.nth_error_last).
  erewrite RunFacts.bind_frame_column
    by (cbn [store];
        first [apply StoreFacts.nth_error_last | reflexivity]).
  reflexivity.
Qed.

Lemma multiselect_rejects options default selection c w :
  In c selection -> ~ In c options ->
  multiselect options default selection w = (inl StreamlitAPIException, w).
Proof.
  intros Hc Hn. unfold multiselect.
  destruct (forallb (fun c => existsb (label_eqb c) options) default);
    [|reflexivity].
  replace (forallb (fun c => existsb (label_eqb c) options) selection)
    with false; [reflexivity|].
  symmetry. apply not_true_is_false. intros H.
  rewrite forallb_forall in H. specialize (H c Hc).
  apply existsb_exists in H. destruct H as (x & Hx & E).
  apply label_eqb_eq in E. subst. contradiction.
Qed.


End RunMore.

(** X19.  A selection that names a country the latest-year table does
    not have, as the default selection does on a file without one of its
    three countries, stops the radar panel with the widget's exception
    after the heading: neither chart nor message follows. *)
Theorem X19_radar_rejects_unknown_country w df latest selection t cols c :
  nth_error (store w) df = Some (Frame t cols) ->
  In c selection ->
  ~ In c (Radar.options (Radar.df_radar t latest)) ->
  fst (radar_panel df latest selection w) = inl StreamlitAPIException /\
  added (radar_panel df latest selection) w = [Subheader radar_heading].
Proof.
  intros H Hc Hn. unfold added.
  rewrite (RunMore.radar_panel_prefix w df latest selection t cols H).
  erewrite RunMore.bind_raise
    by (apply (RunMore.multiselect_rejects _ _ _ c); assumption).
  cbn [fst snd page]. split; [reflexivity | apply RunFacts.skipn_exact].
Qed.

Lemma X19_radar_rejects_default_example :
  fst (radar_panel 0%nat 2000%Z
         [Some "United States"; Some "China"; Some "India"]%string
         (World [Frame (Clean.load_data Sample.two_countries) []] []))
  = inl StreamlitAPIException.
Proof.
  apply (X19_radar_rejects_unknown_country
           (World [Frame (Clean.load_data Sample.two_countries) []] [])
           0%nat 2000%Z
           [Some "United States"; Some "China"; Some "India"]%string
           (Clean.load_data Sample.two_countries) []
           (Some "China"%string) eq_refl).
  - simpl. tauto.
  - vm_compute. intros [H|[H|[]]]; discriminate H.
Defined.

Module RenderFacts.







End RenderFacts.





(** X24.  The bubble map panel draws its chart when the largest [co2] of
    its table is positive and no [co2] is negative; when the table has
    rows and its largest [co2] is 0, every bubble size is NaN or
    negative, [px.scatter_geo] raises a ValueError, and the panel stops
    after its heading. *)
Theorem X24_bubble_map_chart_or_error w df latest t cols :
  nth_error (store w) df = Some (Frame t cols) ->
  (forall M,
      BubbleMap.co2_max (BubbleMap.df_map t) = Fin M -> 0 < M ->
      (forall r q, In r (BubbleMap.df_map t) -> val r co2 = Some q ->
                   0 <= q) ->
      fst (bubble_map_panel df latest w) = inr tt /\
      added (bubble_map_panel df latest) w
      = [Subheader bubble_map_heading;
         PlotlyChart (ScatterGeoFig
                        (BubbleMap.df_map t)
                        (BubbleMap.bubble_sizes (BubbleMap.df_map t))
                        latest)]) /\
  (forall M,
      BubbleMap.df_map t <> [] ->
      BubbleMap.co2_max (BubbleMap.df_map t) = Fin M -> M == 0 ->
      fst (bubble_map_panel df latest w) = inl ValueError /\
      added (bubble_map_panel df latest) w = [Subheader bubble_map_heading]).
Proof.
  intros H. split.
  - intros M HM Hpos Hnn. unfold added.
    rewrite (RunMore.bubble_map_panel_run w df latest t cols H
               (RunMore.sizes_valid t M HM Hpos Hnn)).
    cbn [fst snd page]. split; [reflexivity | apply RunFacts.skipn_exact].
  - intros M Hne HM H0. unfold added.
    rewrite (RunMore.bubble_map_panel_raises w df latest t cols H
               (RunMore.sizes_invalid t M Hne HM H0)).
    cbn [fst snd page]. split; [reflexivity | apply RunFacts.skipn_exact].
Qed.

(** A country that emits nothing: the panel stops after its heading. *)
Lemma X24_bubble_map_error_example :
  fst (bubble_map_panel 0%nat 2000%Z
         (World [Frame (Clean.load_data Sample.no_emissions) []] []))
  = inl ValueError /\
  added (bubble_map_panel 0%nat 2000%Z)
        (World [Frame (Clean.load_data Sample.no_emissions) []] [])
  = [Subheader bubble_map_heading].
Proof.
  destruct (X24_bubble_map_chart_or_error
              (World [Frame (Clean.load_data Sample.no_emissions) []] [])
              0%nat 2000%Z (Clean.load_data Sample.no_emissions) [] eq_refl)
    as [_ Hraise].
  apply (Hraise 0); [vm_compute; discriminate | reflexivity | reflexivity].
Defined.

(** ** The sunburst *)

Module SunburstFacts.
Import Sunburst.

Lemma row_co2_geb_total x y : co2_geb x y = true \/ co2_geb y x = true.
Proof.
  unfold co2_geb. destruct (val x co2) as [a|], (val y co2) as [b|]; auto.
  rewrite !Qle_bool_iff.
  destruct (Qlt_le_dec a b) as [H|H]; auto. right. now apply Qlt_le_weak.
Qed.

Lemma row_co2_geb_trans x y z :
  co2_geb x y = true -> co2_geb y z = true -> co2_geb x z = true.
Proof.
  unfold co2_geb.
  destruct (val x co2) as [a|], (val y co2) as [b|], (val z co2) as [c|];
    auto; try discriminate.
  rewrite !Qle_bool_iff. intros H1 H2. eapply Qle_trans; eauto.
Qed.

Lemma co2_geb_at_least x y : co2_geb x y = true -> co2_at_least x y.
Proof.
  unfold co2_geb, co2_at_least.
  destruct (val x co2) as [a|], (val y co2) as [b|]; auto; try discriminate.
  apply Qle_bool_iff.
Qed.

Lemma prefix_split p : forall s,
  String.prefix p s = true -> exists v, s = (p ++ v)%string.
Proof.
  induction p as [|a p IH]; intros s H.
  - now exists s.
  - destruct s as [|b s]; simpl in H; [discriminate|].
    destruct (ascii_dec a b) as [->|]; [|discriminate].
    destruct (IH s H) as (v & ->). now exists v.
Qed.

Lemma replace_from_skip pat rep u : forall v,
  replace_from pat rep (String.length u) (u ++ v)%string
  = replace_from pat rep 0 v.
Proof.
  induction u as [|c u IH]; intros v; simpl.
  - destruct v; reflexivity.
  - apply IH.
Qed.

Lemma length_append u v :
  String.length (u ++ v)%string = (String.length u + String.length v)%nat.
Proof.
  induction u as [|c u IH]; simpl; [reflexivity | now rewrite IH].
Qed.

(** Replacing a pattern by itself gives the string back. *)
Lemma replace_from_same pat n : forall s,
  (String.length s <= n)%nat -> replace_from pat pat 0 s = s.
Proof.
  induction n as [|n IH]; intros s Hn.
  - destruct s; [reflexivity | simpl in Hn; lia].
  - destruct s as [|ch s]; [reflexivity|].
    cbn [replace_from].
    destruct (String.prefix pat (String ch s)
              && negb (String.eqb pat EmptyString))%bool eqn:E.
    + apply andb_true_iff in E. destruct E as [Hp Hne].
      destruct pat as [|a p]; [discriminate|].
      destruct (prefix_split _ _ Hp) as (v & Hv).
      simpl in Hv. injection Hv as -> ->.
      replace (String.length (String a p) - 1)%nat with (String.length p)
        by (simpl; lia).
      rewrite replace_from_skip, IH.
      * reflexivity.
      * simpl in Hn. rewrite length_append in Hn. lia.
    + rewrite IH; [reflexivity | simpl in Hn; lia].
Qed.

Lemma filter_both {A} (p q : A -> bool) l :
  filter q (filter p l) = filter (fun x => p x && q x) l.
Proof.
  induction l as [|x l IH]; [reflexivity|]. cbn [filter].
  destruct (p x); cbn [filter andb]; [destruct (q x)|]; now rewrite IH.
Qed.

Lemma relabel_sources m :
  In m sources ->
  In (relabel (column_name m))
     ["Coal"; "Oil"; "Gas"; "Flaring"; "Cement"]%string.
Proof.
  intros [<-|[<-|[<-|[<-|[<-|[]]]]]]; vm_compute; tauto.
Qed.

End SunburstFacts.

(** X21.  The sunburst takes, of the rows of the table whose year is
    the latest year, the five with the largest [co2], or all of them
    when there are fewer, largest first: every row it takes has at least
    the [co2] of every row it leaves, a missing [co2] counting as less
    than any number. *)
Theorem X21_sunburst_takes_five_largest t latest :
  exists chosen rest,
    Sunburst.top5 (Sunburst.df5 t latest) = map country chosen /\
    List.length chosen = Nat.min 5 (List.length (chosen ++ rest)) /\
    Permutation (chosen ++ rest) (filter (fun r => (year r =? latest)%Z) t) /\
    (forall r, In r (chosen ++ rest) <-> In r t /\ year r = latest) /\
    StronglySorted co2_at_least chosen /\
    forall a b, In a chosen -> In b rest -> co2_at_least a b.
Proof.
  pose proof (isort_perm Sunburst.co2_geb (Sunburst.df5 t latest)) as Hperm.
  pose proof (isort_strongly_sorted
                Sunburst.co2_geb
                SunburstFacts.row_co2_geb_total
                SunburstFacts.row_co2_geb_trans
                (Sunburst.df5 t latest)) as Hsort.
  exists (firstn 5 (isort Sunburst.co2_geb (Sunburst.df5 t latest))),
         (skipn 5 (isort Sunburst.co2_geb (Sunburst.df5 t latest))).
  rewrite firstn_skipn.
  split; [reflexivity|]. split; [apply length_firstn|].
  split; [exact Hperm|]. split; [|split].
  - intros r. split.
    + intros Hr. apply (Permutation_in _ Hperm) in Hr.
      apply filter_In in Hr. destruct Hr as [Hr Hy].
      split; [exact Hr | now apply Z.eqb_eq].
    + intros [Hr Hy]. apply (Permutation_in _ (Permutation_sym Hperm)).
      apply filter_In. split; [exact Hr | now apply Z.eqb_eq].
  - apply StronglySorted_firstn.
    apply (StronglySorted_weaken (fun a b => Sunburst.co2_geb a b = true));
      [|exact Hsort].
    intros a b _ _. apply SunburstFacts.co2_geb_at_least.
  - intros a b Ha Hb. apply SunburstFacts.co2_geb_at_least.
    now apply (sorted_firstn_skipn
                 (fun a b => Sunburst.co2_geb a b = true)
                 (isort Sunburst.co2_geb (Sunburst.df5 t latest)))
      with (n := 5%nat).
Qed.

(** Seven countries in the latest year, the largest [co2] of the file
    in an earlier one. *)
Lemma X21_sunburst_takes_five_example :
  exists chosen rest : list (row (option Q)),
    [Some "D7"; Some "D6"; Some "D5"; Some "D4"; Some "D2"]%string
    = map country chosen /\
    List.length chosen = 5%nat /\ List.length rest = 2%nat.
Proof.
  destruct (X21_sunburst_takes_five_largest
              (Clean.load_data Sample.seven_emitters) 2000%Z)
    as (chosen & rest & Htop & Hlen & Hperm & _).
  apply Permutation_length in Hperm.
  match type of Hperm with _ = ?n => change n with 7%nat in Hperm end.
  rewrite Hperm in Hlen. cbn [Nat.min] in Hlen.
  exists chosen, rest. split; [rewrite <- Htop; reflexivity|].
  split; [exact Hlen|].
  rewrite length_app, Hlen in Hperm. now injection Hperm.
Defined.

(** X22.  Replacing a text by itself changes no string, so the third
    string call of the source labels, which replaces Flaring by Flaring,
    does nothing: the label is the title-cased column name without its
    [_co2]. *)
Theorem X22_replace_by_itself_is_identity :
  (forall pat s, Sunburst.replace pat pat s = s) /\
  (forall s, Sunburst.relabel s
             = Sunburst.title (Sunburst.replace "_co2" "" s)).
Proof.
  assert (H : forall pat s, Sunburst.replace pat pat s = s).
  { intros pat s. unfold Sunburst.replace.
    now apply SunburstFacts.replace_from_same with (n := String.length s). }
  split; [exact H|]. intros s. unfold Sunburst.relabel. apply H.
Qed.

(** X23.  The table behind the sunburst lists the sources one after the
    other, Coal, Oil, Gas, Flaring, Cement, and under each source one
    entry for every row of the table that is of the latest year and of
    one of the chosen countries, in table order: the country, the label
    of the source and the row's value in that source's column. *)
Theorem X23_sunburst_entries t latest :
  map relabel_row (Sunburst.melt (Sunburst.df5 t latest))
  = flat_map
      (fun lm =>
         map (fun r => Melt (country r) (fst lm) (val r (snd lm)))
             (filter
                (fun r =>
                   (year r =? latest)%Z
                   && existsb (label_eqb (country r))
                              (Sunburst.top5 (Sunburst.df5 t latest)))
                t))
      source_labels.
Proof.
  rewrite <- SunburstFacts.filter_both.
  fold (Sunburst.df5 t latest).
  unfold Sunburst.melt, Sunburst.sources, source_labels.
  cbn [flat_map fst snd]. rewrite !map_app, !map_map, !app_nil_r.
  reflexivity.
Qed.

(** One country with its five sources in the latest year. *)
Lemma X23_sunburst_entries_example :
  map relabel_row
      (Sunburst.melt (Sunburst.df5 (Clean.load_data Sample.with_sources)
                                   2000%Z))
  = [Melt (Some "A") "Coal" (Some 1); Melt (Some "A") "Oil" (Some 2);
     Melt (Some "A") "Gas" (Some 3); Melt (Some "A") "Flaring" (Some 4);
     Melt (Some "A") "Cement" (Some 5)]%string.
Proof.
  rewrite X23_sunburst_entries. reflexivity.
Defined.
